(** * Spectra: the [SparseRegularInverse] matrix operation

    A shallow embedding of [include/MatOp/SparseRegularInverse.h] and of the
    parts of the Eigen library that the class calls:
    - [Eigen::SparseMatrix] in compressed storage, read through its inner
      iterators;
    - the product of a sparse self-adjoint view with a dense vector
      (Eigen/src/SparseCore/SparseSelfAdjointView.h,
      [sparse_selfadjoint_time_dense_product]);
    - [Eigen::ConjugateGradient] with its default template arguments
      (Eigen/src/IterativeLinearSolvers/ConjugateGradient.h,
      IterativeSolverBase.h and BasicPreconditioners.h).

    The code is embedded twice.  First the template parameter [Scalar] is
    instantiated with the exact rationals [Qc]: the statements on this
    embedding are about the algebra of the algorithms, not about the
    rounding of a floating-point scalar, and they say so.  A quotient by
    zero is zero in [Qc] (infinity or NaN in floating point); with exact
    scalars the solver divides by zero only when its iteration breaks
    down.  Then, in the module [Generic], the same functions are written
    over a scalar type given by its operations, and run at IEEE binary64,
    the [double] of the library's users: this is where rounding, and a
    solver that stops at its iteration cap, are observed.  At exact
    scalars the second embedding computes what the first one does.

    Sizes and positions in arrays ([Eigen::Index],
    [StorageIndex]) are natural numbers; the member [m_n], declared
    [const int], is an integer obtained by the narrowing conversion of the
    constructor.

    The caller's matrices and scalar buffers live in a [State]; the
    operator refers to its matrix by a reference into that state, as the
    class holds a [const SparseMatrix&].  A method takes the operator and
    the state and returns an [outcome] (a value or a thrown exception), the
    operator (its solver has [mutable] members) and the new state. *)

From Stdlib Require Import List Arith ZArith Bool Lia String.
From Stdlib Require Import QArith Qcanon Lqa.
From Stdlib Require Import Floats.
Import ListNotations.

Local Open Scope nat_scope.

(** ** Scalars and dense vectors *)

(** The scalar type of the class template, here the exact rationals: no
    operation rounds.  The module [Generic] below has the code at
    [double]. *)
Abbreviation Scalar := Qc (only parsing).

Definition Vector : Type := list Scalar.

Abbreviation s0 := (Q2Qc 0) (only parsing).
Abbreviation s1 := (Q2Qc 1) (only parsing).

(** [v.coeff(i)]. *)
Definition coeff (v : Vector) (i : nat) : Scalar := nth i v s0.

(** [v.coeffRef(i) += a].  A position outside the vector is undefined
    behaviour in C++; here the vector is left as it is. *)
Fixpoint add_at (i : nat) (a : Scalar) (v : Vector) : Vector :=
  match v, i with
  | [], _ => []
  | y :: tl, O => (y + a)%Qc :: tl
  | y :: tl, S i' => y :: add_at i' a tl
  end.

(** [Vector::Zero(n)] and [v.setZero()]. *)
Definition setZero (n : nat) : Vector := repeat s0 n.

Fixpoint dot (u v : Vector) : Scalar :=
  match u, v with
  | a :: u', b :: v' => (a * b + dot u' v')%Qc
  | _, _ => s0
  end.

Definition squaredNorm (v : Vector) : Scalar := dot v v.

(** [u + a * v], componentwise, on vectors of one length. *)
Fixpoint axpy (a : Scalar) (v u : Vector) : Vector :=
  match u, v with
  | x :: u', y :: v' => (x + a * y)%Qc :: axpy a v' u'
  | _, _ => []
  end.

(** Componentwise product, the kernel of the diagonal preconditioner. *)
Fixpoint cwiseProduct (u v : Vector) : Vector :=
  match u, v with
  | x :: u', y :: v' => (x * y)%Qc :: cwiseProduct u' v'
  | _, _ => []
  end.

(** ** Sparse matrices *)

(** The [Uplo] template argument: [Eigen::Lower] or [Eigen::Upper]. *)
Inductive UpLoType : Type := Lower | Upper.

(** One stored coefficient of an inner vector: inner index and value. *)
Definition Entry : Type := (nat * Scalar)%type.

(** [Eigen::SparseMatrix<Scalar, Flags, StorageIndex>], as its inner
    iterators show it: for every outer index (a column, or a row when
    [Flags] has [RowMajorBit]) the stored coefficients in storage order. *)
Record SparseMatrix : Type := {
  IsRowMajor : bool;
  m_innerSize : nat;
  m_data : list (list Entry)
}.

Definition outerSize (m : SparseMatrix) : nat := List.length (m_data m).
Definition innerSize (m : SparseMatrix) : nat := m_innerSize m.

Definition mat_rows (m : SparseMatrix) : nat :=
  if IsRowMajor m then outerSize m else innerSize m.
Definition mat_cols (m : SparseMatrix) : nat :=
  if IsRowMajor m then innerSize m else outerSize m.

(** The stored coefficients of outer vector [j] ([InnerIterator(m, j)]). *)
Definition innerVector (m : SparseMatrix) (j : nat) : list Entry :=
  nth j (m_data m) [].

(** Value stored at inner index [i] of an inner vector, zero when absent. *)
Fixpoint entry_at (i : nat) (es : list Entry) : Scalar :=
  match es with
  | [] => s0
  | (k, v) :: tl => if k =? i then v else entry_at i tl
  end.

(** [m.coeff(row, col)]. *)
Definition mat_coeff (m : SparseMatrix) (row col : nat) : Scalar :=
  if IsRowMajor m then entry_at col (innerVector m row)
  else entry_at row (innerVector m col).

(** Inner indices strictly increasing: the order of compressed storage. *)
Fixpoint increasing_from (lo : nat) (es : list Entry) : bool :=
  match es with
  | [] => true
  | (k, _) :: tl => (lo <=? k) && increasing_from (S k) tl
  end.

Definition inner_sorted (es : list Entry) : bool := increasing_from 0 es.

Definition inner_bounded (n : nat) (es : list Entry) : bool :=
  forallb (fun e => fst e <? n) es.

(** A well-formed compressed matrix: sorted inner vectors, indices in
    range. *)
Definition wf_matrix (m : SparseMatrix) : bool :=
  forallb (fun es => inner_sorted es && inner_bounded (innerSize m) es)
          (m_data m).

(** Membership of position (row, col) in a triangle, diagonal included. *)
Definition in_triangle (uplo : UpLoType) (row col : nat) : bool :=
  match uplo with
  | Lower => col <=? row
  | Upper => row <=? col
  end.

(** Row and column of the coefficient at inner index [i] of outer [j]. *)
Definition entry_row (m : SparseMatrix) (j i : nat) : nat :=
  if IsRowMajor m then j else i.
Definition entry_col (m : SparseMatrix) (j i : nat) : nat :=
  if IsRowMajor m then i else j.

(** Only the triangle [uplo] is populated. *)
Definition triangle_only (uplo : UpLoType) (m : SparseMatrix) : bool :=
  forallb (fun je =>
             forallb (fun e => in_triangle uplo (entry_row m (fst je) (fst e))
                                                (entry_col m (fst je) (fst e)))
                     (snd je))
          (combine (seq 0 (outerSize m)) (m_data m)).

(** The full symmetric matrix that mirrors the triangle [uplo] of [m]. *)
Definition sym_coeff (uplo : UpLoType) (m : SparseMatrix) (row col : nat)
  : Scalar :=
  if in_triangle uplo row col then mat_coeff m row col
  else mat_coeff m col row.

(** ** Dense reference product *)

(** Sum of [f 0 .. f (n-1)]. *)
Fixpoint sum_n (n : nat) (f : nat -> Scalar) : Scalar :=
  match n with
  | O => s0
  | S k => (sum_n k f + f k)%Qc
  end.

Definition dense_mat_vec (n : nat) (B : nat -> nat -> Scalar) (x : Vector)
  : Vector :=
  map (fun r => sum_n n (fun c => (B r c * coeff x c)%Qc)) (seq 0 n).

(** ** Product of a sparse self-adjoint view with a dense vector

    [sparse_selfadjoint_time_dense_product<Mode>] for a real scalar (the
    conjugate is the identity) and a right-hand side of one column. *)

(** Which half of an inner vector holds the triangle [Mode]: the entries
    before the diagonal ([ProcessFirstHalf]) or after it. *)
Definition ProcessFirstHalf (mode : UpLoType) (rowMajor : bool) : bool :=
  match mode with
  | Upper => negb rowMajor
  | Lower => rowMajor
  end.

(** [while (i && i.index() < j) ++i;] *)
Fixpoint skip_below (j : nat) (it : list Entry) : list Entry :=
  match it with
  | (k, v) :: tl => if k <? j then skip_below j tl else it
  | [] => []
  end.

(** The scatter loop
    [for (; (ProcessFirstHalf ? i && i.index() < j : i); ++i)]:
    returns the iterator where the loop stopped, the accumulator [res_j] and
    the updated result. *)
Fixpoint scatter (firstHalf : bool) (j : nat) (rhs : Vector) (rhs_j : Scalar)
    (it : list Entry) (res_j : Scalar) (res : Vector)
  : list Entry * Scalar * Vector :=
  match it with
  | [] => ([], res_j, res)
  | (k, lhs_ij) :: tl =>
      if (if firstHalf then k <? j else true) then
        scatter firstHalf j rhs rhs_j tl
                (res_j + lhs_ij * coeff rhs k)%Qc
                (add_at k (lhs_ij * rhs_j)%Qc res)
      else (it, res_j, res)
  end.

(** The diagonal coefficient, when the iterator stands on it. *)
Definition diag_step (alpha : Scalar) (j : nat) (rhs : Vector)
    (it : list Entry) (res : Vector) : list Entry * Vector :=
  match it with
  | (k, v) :: tl =>
      if k =? j then (tl, add_at j (alpha * v * coeff rhs j)%Qc res)
      else (it, res)
  | [] => (it, res)
  end.

(** The body of the loop over the outer index [j]. *)
Definition process_outer (firstHalf : bool) (alpha : Scalar) (rhs : Vector)
    (j : nat) (es : list Entry) (res : Vector) : Vector :=
  let '(i1, res1) :=
    if negb firstHalf then diag_step alpha j rhs (skip_below j es) res
    else (es, res) in
  let rhs_j := (alpha * coeff rhs j)%Qc in
  let '(i2, res_j, res2) := scatter firstHalf j rhs rhs_j i1 s0 res1 in
  let res3 := add_at j (alpha * res_j)%Qc res2 in
  if firstHalf then snd (diag_step alpha j rhs i2 res3) else res3.

(** The loop [for (Index j = 0; j < lhs.outerSize(); ++j)]. *)
Fixpoint outer_loop (firstHalf : bool) (alpha : Scalar) (rhs : Vector)
    (j : nat) (outers : list (list Entry)) (res : Vector) : Vector :=
  match outers with
  | [] => res
  | es :: tl =>
      outer_loop firstHalf alpha rhs (S j) tl
                 (process_outer firstHalf alpha rhs j es res)
  end.

Definition sparse_selfadjoint_time_dense_product (mode : UpLoType)
    (lhs : SparseMatrix) (rhs : Vector) (res : Vector) (alpha : Scalar)
  : Vector :=
  outer_loop (ProcessFirstHalf mode (IsRowMajor lhs)) alpha rhs 0
             (m_data lhs) res.

(** [dst.noalias() = lhs.selfadjointView<Mode>() * rhs]: the destination
    has [lhs.rows()] coefficients, is set to zero, and the product is added
    with [alpha = 1]. *)
Definition selfadjoint_times (mode : UpLoType) (lhs : SparseMatrix)
    (rhs : Vector) : Vector :=
  sparse_selfadjoint_time_dense_product mode lhs rhs
    (setZero (mat_rows lhs)) s1.

(** ** Sums used to state what the product computes *)

(** Weighted sum over the stored coefficients of an inner vector:
    the sum of [v * g k] over the entries [(k, v)]. *)
Fixpoint wsum (g : nat -> Scalar) (es : list Entry) : Scalar :=
  match es with
  | [] => s0
  | (k, v) :: tl => (v * g k + wsum g tl)%Qc
  end.

(** The stored coefficient at inner index [k] of outer vector [j] lies in
    the half that the product processes. *)
Definition in_half (firstHalf : bool) (j k : nat) : bool :=
  if firstHalf then k <? j else j <? k.

(** Factor by which the coefficient at inner index [k] of outer vector [j]
    enters coefficient [r] of the result. *)
Definition outer_weight (firstHalf : bool) (alpha : Scalar) (rhs : Vector)
    (j r k : nat) : Scalar :=
  if in_half firstHalf j k then
    ((if r =? k then alpha * coeff rhs j else s0) +
     (if r =? j then alpha * coeff rhs k else s0))%Qc
  else if k =? j then (if r =? j then alpha * coeff rhs j else s0)
  else s0.

(** Sum, over the outer vectors from index [j] on, of what each adds to
    coefficient [r]. *)
Fixpoint outer_sum (firstHalf : bool) (alpha : Scalar) (rhs : Vector)
    (r j : nat) (outers : list (list Entry)) : Scalar :=
  match outers with
  | [] => s0
  | es :: tl =>
      (wsum (outer_weight firstHalf alpha rhs j r) es +
       outer_sum firstHalf alpha rhs r (S j) tl)%Qc
  end.

(** ** Scalar comparisons and numeric traits *)

Definition sc_eqb (a b : Scalar) : bool := Qeq_bool a b.
Definition sc_leb (a b : Scalar) : bool := Qle_bool a b.
Definition sc_ltb (a b : Scalar) : bool := negb (Qle_bool b a).

(** [numext::maxi(a, b)]. *)
Definition maxi (a b : Scalar) : Scalar := if sc_ltb a b then b else a.

(** What the solver takes from [NumTraits<Scalar>] and from
    [std::numeric_limits<RealScalar>]: [epsilon()], the default tolerance,
    and [min()], the threshold below which a squared residual counts as
    zero. *)
Record NumTraits : Type := {
  epsilon : Scalar;
  considerAsZero : Scalar
}.

(** ** Diagonal preconditioner (BasicPreconditioners.h) *)

(** [while (it && it.index() != j) ++it;] *)
Fixpoint find_index (j : nat) (it : list Entry) : list Entry :=
  match it with
  | (k, v) :: tl => if k =? j then it else find_index j tl
  | [] => []
  end.

(** [m_invdiag(j)]: the inverse of the stored diagonal coefficient, or one
    when it is absent or zero. *)
Definition invdiag_coeff (j : nat) (es : list Entry) : Scalar :=
  match find_index j es with
  | (k, v) :: _ =>
      if (k =? j) && negb (sc_eqb v s0) then (s1 / v)%Qc else s1
  | [] => s1
  end.

Fixpoint factorize_from (j : nat) (outers : list (list Entry)) : Vector :=
  match outers with
  | [] => []
  | es :: tl => invdiag_coeff j es :: factorize_from (S j) tl
  end.

(** [DiagonalPreconditioner::factorize(mat)]: one coefficient per outer
    vector (the matrices that reach it are square). *)
Definition factorize (mat : SparseMatrix) : Vector :=
  factorize_from 0 (m_data mat).

(** [DiagonalPreconditioner::solve(b)]. *)
Definition precond_solve (invdiag b : Vector) : Vector :=
  cwiseProduct invdiag b.

(** ** Conjugate gradient (ConjugateGradient.h) *)

(** The loop [while (i < maxIters)] of [internal::conjugate_gradient]; the
    first argument counts the iterations that remain, [maxIters - i].
    Returns the iterate, the iteration count and the last squared norm of
    the residual.  The quotients [absNew / p.dot(tmp)] and
    [absNew / absOld] are zero here when the divisor is zero; at [double]
    they are an infinity or a NaN. *)
Fixpoint cg_loop (remaining : nat) (mat precond : Vector -> Vector)
    (threshold : Scalar) (i : nat) (x residual p : Vector)
    (absNew residualNorm2 : Scalar) : Vector * nat * Scalar :=
  match remaining with
  | O => (x, i, residualNorm2)
  | S remaining' =>
      let tmp := mat p in
      let alpha := (absNew / dot p tmp)%Qc in
      let x := axpy alpha p x in
      let residual := axpy (- alpha)%Qc tmp residual in
      let residualNorm2 := squaredNorm residual in
      if sc_ltb residualNorm2 threshold then (x, i, residualNorm2)
      else
        let z := precond residual in
        let absOld := absNew in
        let absNew := dot residual z in
        let beta := (absNew / absOld)%Qc in
        let p := axpy beta p z in
        cg_loop remaining' mat precond threshold (S i) x residual p
                absNew residualNorm2
  end.

(** [internal::conjugate_gradient(mat, rhs, x, precond, iters, tol_error)].
    Returns the iterate [x], the number of iterations and the square of
    [tol_error]: the relative residual [residualNorm2 / rhsNorm2], of which
    Eigen stores the square root. *)
Definition conjugate_gradient (traits : NumTraits)
    (mat precond : Vector -> Vector) (rhs x : Vector)
    (maxIters : nat) (tol : Scalar) : Vector * nat * Scalar :=
  let residual := axpy (- s1)%Qc (mat x) rhs in
  let rhsNorm2 := squaredNorm rhs in
  if sc_eqb rhsNorm2 s0 then (setZero (List.length x), 0, s0)
  else
    let threshold := maxi (tol * tol * rhsNorm2)%Qc (considerAsZero traits) in
    let residualNorm2 := squaredNorm residual in
    if sc_ltb residualNorm2 threshold
    then (x, 0, (residualNorm2 / rhsNorm2)%Qc)
    else
      let p := precond residual in
      let absNew := dot residual p in
      let '(x', iters, residualNorm2') :=
        cg_loop maxIters mat precond threshold 0 x residual p
                absNew residualNorm2 in
      (x', iters, (residualNorm2' / rhsNorm2)%Qc).

(** ** Program state *)

(** References to the caller's matrices and pointers into the caller's
    scalar buffers. *)
Definition MatRef : Type := nat.
Definition Ptr : Type := nat.

(** Calls into the iterative solver, in the order they are made. *)
Inductive Event : Type :=
| EvCompute (mat : MatRef)
| EvSolve.

Record State : Type := {
  st_mats : MatRef -> SparseMatrix;
  st_mem : Ptr -> Scalar;
  st_trace : list Event
}.

(** [Map<const Vector>(p, n)]: the [n] scalars from [p] on. *)
Definition load (p : Ptr) (n : nat) (mem : Ptr -> Scalar) : Vector :=
  map (fun k => mem (p + k)) (seq 0 n).

(** Assignment of [v] to [Map<Vector>(p, n)]. *)
Definition store (p : Ptr) (n : nat) (v : Vector) (mem : Ptr -> Scalar)
  : Ptr -> Scalar :=
  fun a => if (p <=? a) && (a <? p + n) then coeff v (a - p) else mem a.

Inductive ComputationInfo : Type :=
| Success | NumericalIssue | NoConvergence | InvalidInput.

(** [Eigen::ConjugateGradient<SparseMatrix>]: the template arguments left to
    their defaults are [UpLo = Lower] and the diagonal preconditioner.
    [mp_matrix] is the reference taken by [compute], [None] for the empty
    matrix a default-constructed solver refers to; the last three members
    are [mutable].  [m_error_sq] is the square of Eigen's [m_error]. *)
Record ConjugateGradient : Type := {
  mp_matrix : option MatRef;
  m_invdiag : Vector;
  m_isInitialized : bool;
  m_maxIterations : Z;
  m_tolerance : Scalar;
  m_error_sq : Scalar;
  m_iterations : nat;
  m_info : ComputationInfo
}.

(** The triangle a solver declared without [UpLo] works on. *)
Definition ConjugateGradient_UpLo : UpLoType := Lower.

Definition m_dummy : SparseMatrix :=
  {| IsRowMajor := false; m_innerSize := 0; m_data := [] |}.

Definition cg_matrix (cg : ConjugateGradient) (st : State) : SparseMatrix :=
  match mp_matrix cg with
  | Some r => st_mats st r
  | None => m_dummy
  end.

(** [IterativeSolverBase::init()]. *)
Definition ConjugateGradient_init (traits : NumTraits) : ConjugateGradient :=
  {| mp_matrix := None;
     m_invdiag := [];
     m_isInitialized := false;
     m_maxIterations := (-1)%Z;
     m_tolerance := epsilon traits;
     m_error_sq := s0;
     m_iterations := 0;
     m_info := Success |}.

(** [IterativeSolverBase::compute(A)]. *)
Definition ConjugateGradient_compute (cg : ConjugateGradient) (A : MatRef)
    (st : State) : ConjugateGradient * State :=
  ({| mp_matrix := Some A;
      m_invdiag := factorize (st_mats st A);
      m_isInitialized := true;
      m_maxIterations := m_maxIterations cg;
      m_tolerance := m_tolerance cg;
      m_error_sq := m_error_sq cg;
      m_iterations := m_iterations cg;
      m_info := Success |},
   {| st_mats := st_mats st;
      st_mem := st_mem st;
      st_trace := st_trace st ++ [EvCompute A] |}).

(** [IterativeSolverBase::maxIterations()]. *)
Definition maxIterations (cg : ConjugateGradient) (mat : SparseMatrix) : nat :=
  if (m_maxIterations cg <? 0)%Z then 2 * mat_cols mat
  else Z.to_nat (m_maxIterations cg).

(** [dst = cg.solve(b)]: the destination is set to zero, then
    [_solve_vector_with_guess_impl] runs the iteration on the view
    [selfadjointView<UpLo>] of the referenced matrix. *)
Definition ConjugateGradient_solve (traits : NumTraits)
    (cg : ConjugateGradient) (b : Vector) (st : State)
  : Vector * ConjugateGradient * State :=
  let mat := cg_matrix cg st in
  let '(x, iters, err) :=
    conjugate_gradient traits
      (selfadjoint_times ConjugateGradient_UpLo mat)
      (precond_solve (m_invdiag cg))
      b (setZero (List.length b))
      (maxIterations cg mat) (m_tolerance cg) in
  (x,
   {| mp_matrix := mp_matrix cg;
      m_invdiag := m_invdiag cg;
      m_isInitialized := m_isInitialized cg;
      m_maxIterations := m_maxIterations cg;
      m_tolerance := m_tolerance cg;
      m_error_sq := err;
      m_iterations := iters;
      m_info := if sc_leb err (m_tolerance cg * m_tolerance cg)%Qc
                then Success else NoConvergence |},
   {| st_mats := st_mats st;
      st_mem := st_mem st;
      st_trace := st_trace st ++ [EvSolve] |}).

(** ** The class [SparseRegularInverse] *)

Inductive exception : Type :=
| invalid_argument (what : string).

(** A call returns or throws. *)
Inductive outcome (A : Type) : Type :=
| Return (a : A)
| Throw (e : exception).
Arguments Return {A} a.
Arguments Throw {A} e.

Definition outcome_map {A B : Type} (f : A -> B) (o : outcome A) : outcome B :=
  match o with
  | Return a => Return (f a)
  | Throw e => Throw e
  end.

(** Conversion of an [Eigen::Index] to [int] (32 bits, two's complement). *)
Definition int_of_Index (i : nat) : Z :=
  ((Z.of_nat i + 2 ^ 31) mod 2 ^ 32 - 2 ^ 31)%Z.

Definition INT_MAX : Z := (2 ^ 31 - 1)%Z.

Record SparseRegularInverse : Type := {
  m_n : Z;
  m_mat : MatRef;
  m_cg : ConjugateGradient
}.

Section Operator.

(** The template argument [Uplo] and the traits of [Scalar]. *)
Variable Uplo : UpLoType.
Variable traits : NumTraits.

(** The constructor: the members are initialised, the matrix is checked,
    the solver is set up. *)
Definition construct (mat_ : MatRef) (st : State)
  : outcome SparseRegularInverse * State :=
  let mat := st_mats st mat_ in
  let m_n0 := int_of_Index (mat_rows mat) in
  let m_cg0 := ConjugateGradient_init traits in
  if negb (mat_rows mat =? mat_cols mat) then
    (Throw (invalid_argument "SparseRegularInverse: matrix must be square"),
     st)
  else
    let '(cg, st') := ConjugateGradient_compute m_cg0 mat_ st in
    (Return {| m_n := m_n0; m_mat := mat_; m_cg := cg |}, st').

Definition rows (this : SparseRegularInverse) : Z := m_n this.
Definition cols (this : SparseRegularInverse) : Z := m_n this.

(** [solve(x_in, y_out)].  The input is read, then the output is written:
    this is the code when the two buffers do not overlap.  (The code
    clears the destination before it reads the right-hand side, so that
    overlapping buffers give another result; statements on the written
    vector assume [disjoint x_in y_out n].) *)
Definition solve (this : SparseRegularInverse) (x_in y_out : Ptr)
    (st : State) : outcome unit * SparseRegularInverse * State :=
  let n := Z.to_nat (m_n this) in
  let x := load x_in n (st_mem st) in
  let '(y, cg, st') := ConjugateGradient_solve traits (m_cg this) x st in
  (Return tt,
   {| m_n := m_n this; m_mat := m_mat this; m_cg := cg |},
   {| st_mats := st_mats st';
      st_mem := store y_out n y (st_mem st');
      st_trace := st_trace st' |}).

(** [mat_prod(x_in, y_out)].  The input is read, then the output is
    written: this is the code when the two buffers do not overlap.  (With
    [noalias] the destination is cleared and the product accumulated in
    place while the input is read, so that overlapping buffers give
    another result; statements on the written vector assume
    [disjoint x_in y_out n].) *)
Definition mat_prod (this : SparseRegularInverse) (x_in y_out : Ptr)
    (st : State) : outcome unit * SparseRegularInverse * State :=
  let n := Z.to_nat (m_n this) in
  let x := load x_in n (st_mem st) in
  let y := selfadjoint_times Uplo (st_mats st (m_mat this)) x in
  (Return tt, this,
   {| st_mats := st_mats st;
      st_mem := store y_out n y (st_mem st);
      st_trace := st_trace st |}).

(** The calls a client can make on a constructed operator. *)
Inductive Call : Type :=
| CallRows
| CallCols
| CallSolve (x_in y_out : Ptr)
| CallMatProd (x_in y_out : Ptr).

Inductive Value : Type :=
| VInt (z : Z)
| VUnit.

Definition call (c : Call) (this : SparseRegularInverse) (st : State)
  : outcome Value * SparseRegularInverse * State :=
  match c with
  | CallRows => (Return (VInt (rows this)), this, st)
  | CallCols => (Return (VInt (cols this)), this, st)
  | CallSolve x_in y_out =>
      let '(o, this', st') := solve this x_in y_out st in
      (outcome_map (fun _ => VUnit) o, this', st')
  | CallMatProd x_in y_out =>
      let '(o, this', st') := mat_prod this x_in y_out st in
      (outcome_map (fun _ => VUnit) o, this', st')
  end.

(** A sequence of calls on one operator. *)
Fixpoint run (cs : list Call) (this : SparseRegularInverse) (st : State)
  : SparseRegularInverse * State :=
  match cs with
  | [] => (this, st)
  | c :: tl =>
      let '(_, this', st') := call c this st in
      run tl this' st'
  end.

End Operator.

(** ** The same code over any scalar type

    The class is a template in [Scalar].  The module below embeds the same
    functions once more, for a scalar type given by its operations, so
    that they can be run at IEEE binary64 ([double]).  Every function
    keeps its name and its shape, with the operations of the scalar type
    in the place of those of the rationals.  The error of the solver is
    kept as Eigen keeps it, the square root of the relative squared
    residual.  Reductions ([dot], [squaredNorm]) add their terms in index
    order, as Eigen does on vectors of two coefficients.  As above,
    [solve] and [mat_prod] read the input and then write the output: the
    two buffers of a call do not overlap. *)
Module Generic.

Record ScalarOps (S : Type) : Type := {
  zero : S;
  one : S;
  add : S -> S -> S;
  mul : S -> S -> S;
  div : S -> S -> S;
  opp : S -> S;
  eqb : S -> S -> bool;
  ltb : S -> S -> bool;
  leb : S -> S -> bool;
  sqrt : S -> S;
  epsilon : S;
  considerAsZero : S
}.

Arguments zero {S} _.
Arguments one {S} _.
Arguments add {S} _ _ _.
Arguments mul {S} _ _ _.
Arguments div {S} _ _ _.
Arguments opp {S} _ _.
Arguments eqb {S} _ _ _.
Arguments ltb {S} _ _ _.
Arguments leb {S} _ _ _.
Arguments sqrt {S} _ _.
Arguments epsilon {S} _.
Arguments considerAsZero {S} _.

Record SparseMatrix (S : Type) : Type := {
  IsRowMajor : bool;
  m_innerSize : nat;
  m_data : list (list (nat * S))
}.

Arguments IsRowMajor {S} _.
Arguments m_innerSize {S} _.
Arguments m_data {S} _.

Record ConjugateGradient (S : Type) : Type := {
  mp_matrix : option MatRef;
  m_invdiag : list S;
  m_isInitialized : bool;
  m_maxIterations : Z;
  m_tolerance : S;
  m_error : S;
  m_iterations : nat;
  m_info : ComputationInfo
}.

Arguments mp_matrix {S} _.
Arguments m_invdiag {S} _.
Arguments m_isInitialized {S} _.
Arguments m_maxIterations {S} _.
Arguments m_tolerance {S} _.
Arguments m_error {S} _.
Arguments m_iterations {S} _.
Arguments m_info {S} _.

Record State (S : Type) : Type := {
  st_mats : MatRef -> SparseMatrix S;
  st_mem : Ptr -> S;
  st_trace : list Event
}.

Arguments st_mats {S} _ _.
Arguments st_mem {S} _ _.
Arguments st_trace {S} _.

Record SparseRegularInverse (S : Type) : Type := {
  m_n : Z;
  m_mat : MatRef;
  m_cg : ConjugateGradient S
}.

Arguments m_n {S} _.
Arguments m_mat {S} _.
Arguments m_cg {S} _.

Section WithScalar.

Context {S : Type} (ops : ScalarOps S).

Definition Vector : Type := list S.
Definition Entry : Type := (nat * S)%type.

Definition coeff (v : Vector) (i : nat) : S := nth i v (zero ops).

Fixpoint add_at (i : nat) (a : S) (v : Vector) : Vector :=
  match v, i with
  | [], _ => []
  | y :: tl, O => add ops y a :: tl
  | y :: tl, Datatypes.S i' => y :: add_at i' a tl
  end.

Definition setZero (n : nat) : Vector := repeat (zero ops) n.

Fixpoint dot (u v : Vector) : S :=
  match u, v with
  | a :: u', b :: v' => add ops (mul ops a b) (dot u' v')
  | _, _ => zero ops
  end.

Definition squaredNorm (v : Vector) : S := dot v v.

Fixpoint axpy (a : S) (v u : Vector) : Vector :=
  match u, v with
  | x :: u', y :: v' => add ops x (mul ops a y) :: axpy a v' u'
  | _, _ => []
  end.

Fixpoint cwiseProduct (u v : Vector) : Vector :=
  match u, v with
  | x :: u', y :: v' => mul ops x y :: cwiseProduct u' v'
  | _, _ => []
  end.

Definition outerSize (m : SparseMatrix S) : nat := List.length (m_data m).

Definition mat_rows (m : SparseMatrix S) : nat :=
  if IsRowMajor m then outerSize m else m_innerSize m.
Definition mat_cols (m : SparseMatrix S) : nat :=
  if IsRowMajor m then m_innerSize m else outerSize m.

Definition innerVector (m : SparseMatrix S) (j : nat) : list Entry :=
  nth j (m_data m) [].

Fixpoint entry_at (i : nat) (es : list Entry) : S :=
  match es with
  | [] => zero ops
  | (k, v) :: tl => if k =? i then v else entry_at i tl
  end.

Definition mat_coeff (m : SparseMatrix S) (row col : nat) : S :=
  if IsRowMajor m then entry_at col (innerVector m row)
  else entry_at row (innerVector m col).

Definition sym_coeff (uplo : UpLoType) (m : SparseMatrix S)
    (row col : nat) : S :=
  if in_triangle uplo row col then mat_coeff m row col
  else mat_coeff m col row.

(** The dense reference: every coefficient of the result is the sum, from
    zero on and in the order of the columns, of the products of a row. *)
Fixpoint sum_n (n : nat) (f : nat -> S) : S :=
  match n with
  | O => zero ops
  | Datatypes.S k => add ops (sum_n k f) (f k)
  end.

Definition dense_mat_vec (n : nat) (B : nat -> nat -> S) (x : Vector)
  : Vector :=
  map (fun r => sum_n n (fun c => mul ops (B r c) (coeff x c))) (seq 0 n).

Fixpoint skip_below (j : nat) (it : list Entry) : list Entry :=
  match it with
  | (k, v) :: tl => if k <? j then skip_below j tl else it
  | [] => []
  end.

Fixpoint scatter (firstHalf : bool) (j : nat) (rhs : Vector) (rhs_j : S)
    (it : list Entry) (res_j : S) (res : Vector)
  : list Entry * S * Vector :=
  match it with
  | [] => ([], res_j, res)
  | (k, lhs_ij) :: tl =>
      if (if firstHalf then k <? j else true) then
        scatter firstHalf j rhs rhs_j tl
                (add ops res_j (mul ops lhs_ij (coeff rhs k)))
                (add_at k (mul ops lhs_ij rhs_j) res)
      else (it, res_j, res)
  end.

Definition diag_step (alpha : S) (j : nat) (rhs : Vector)
    (it : list Entry) (res : Vector) : list Entry * Vector :=
  match it with
  | (k, v) :: tl =>
      if k =? j
      then (tl, add_at j (mul ops (mul ops alpha v) (coeff rhs j)) res)
      else (it, res)
  | [] => (it, res)
  end.

Definition process_outer (firstHalf : bool) (alpha : S) (rhs : Vector)
    (j : nat) (es : list Entry) (res : Vector) : Vector :=
  let '(i1, res1) :=
    if negb firstHalf then diag_step alpha j rhs (skip_below j es) res
    else (es, res) in
  let rhs_j := mul ops alpha (coeff rhs j) in
  let '(i2, res_j, res2) :=
    scatter firstHalf j rhs rhs_j i1 (zero ops) res1 in
  let res3 := add_at j (mul ops alpha res_j) res2 in
  if firstHalf then snd (diag_step alpha j rhs i2 res3) else res3.

Fixpoint outer_loop (firstHalf : bool) (alpha : S) (rhs : Vector)
    (j : nat) (outers : list (list Entry)) (res : Vector) : Vector :=
  match outers with
  | [] => res
  | es :: tl =>
      outer_loop firstHalf alpha rhs (Datatypes.S j) tl
                 (process_outer firstHalf alpha rhs j es res)
  end.

Definition selfadjoint_times (mode : UpLoType) (lhs : SparseMatrix S)
    (rhs : Vector) : Vector :=
  outer_loop (ProcessFirstHalf mode (IsRowMajor lhs)) (one ops) rhs 0
             (m_data lhs) (setZero (mat_rows lhs)).

Definition maxi (a b : S) : S := if ltb ops a b then b else a.

Fixpoint find_index (j : nat) (it : list Entry) : list Entry :=
  match it with
  | (k, v) :: tl => if k =? j then it else find_index j tl
  | [] => []
  end.

Definition invdiag_coeff (j : nat) (es : list Entry) : S :=
  match find_index j es with
  | (k, v) :: _ =>
      if (k =? j) && negb (eqb ops v (zero ops))
      then div ops (one ops) v else one ops
  | [] => one ops
  end.

Fixpoint factorize_from (j : nat) (outers : list (list Entry)) : Vector :=
  match outers with
  | [] => []
  | es :: tl => invdiag_coeff j es :: factorize_from (Datatypes.S j) tl
  end.

Definition factorize (mat : SparseMatrix S) : Vector :=
  factorize_from 0 (m_data mat).

Definition precond_solve (invdiag b : Vector) : Vector :=
  cwiseProduct invdiag b.

Fixpoint cg_loop (remaining : nat) (mat precond : Vector -> Vector)
    (threshold : S) (i : nat) (x residual p : Vector)
    (absNew residualNorm2 : S) : Vector * nat * S :=
  match remaining with
  | O => (x, i, residualNorm2)
  | Datatypes.S remaining' =>
      let tmp := mat p in
      let alpha := div ops absNew (dot p tmp) in
      let x := axpy alpha p x in
      let residual := axpy (opp ops alpha) tmp residual in
      let residualNorm2 := squaredNorm residual in
      if ltb ops residualNorm2 threshold then (x, i, residualNorm2)
      else
        let z := precond residual in
        let absOld := absNew in
        let absNew := dot residual z in
        let beta := div ops absNew absOld in
        let p := axpy beta p z in
        cg_loop remaining' mat precond threshold (Datatypes.S i)
                x residual p absNew residualNorm2
  end.

(** [internal::conjugate_gradient]: the iterate, the number of iterations
    and [tol_error]. *)
Definition conjugate_gradient (mat precond : Vector -> Vector)
    (rhs x : Vector) (maxIters : nat) (tol : S) : Vector * nat * S :=
  let residual := axpy (opp ops (one ops)) (mat x) rhs in
  let rhsNorm2 := squaredNorm rhs in
  if eqb ops rhsNorm2 (zero ops)
  then (setZero (List.length x), 0, zero ops)
  else
    let threshold :=
      maxi (mul ops (mul ops tol tol) rhsNorm2) (considerAsZero ops) in
    let residualNorm2 := squaredNorm residual in
    if ltb ops residualNorm2 threshold
    then (x, 0, sqrt ops (div ops residualNorm2 rhsNorm2))
    else
      let p := precond residual in
      let absNew := dot residual p in
      let '(x', iters, residualNorm2') :=
        cg_loop maxIters mat precond threshold 0 x residual p
                absNew residualNorm2 in
      (x', iters, sqrt ops (div ops residualNorm2' rhsNorm2)).

Definition load (p : Ptr) (n : nat) (mem : Ptr -> S) : Vector :=
  map (fun k => mem (p + k)) (seq 0 n).

Definition store (p : Ptr) (n : nat) (v : Vector) (mem : Ptr -> S)
  : Ptr -> S :=
  fun a => if (p <=? a) && (a <? p + n) then coeff v (a - p) else mem a.

Definition m_dummy : SparseMatrix S :=
  {| IsRowMajor := false; m_innerSize := 0; m_data := [] |}.

Definition cg_matrix (cg : ConjugateGradient S) (st : State S)
  : SparseMatrix S :=
  match mp_matrix cg with
  | Some r => st_mats st r
  | None => m_dummy
  end.

Definition ConjugateGradient_init : ConjugateGradient S :=
  {| mp_matrix := None;
     m_invdiag := [];
     m_isInitialized := false;
     m_maxIterations := (-1)%Z;
     m_tolerance := epsilon ops;
     m_error := zero ops;
     m_iterations := 0;
     m_info := Success |}.

Definition ConjugateGradient_compute (cg : ConjugateGradient S)
    (A : MatRef) (st : State S) : ConjugateGradient S * State S :=
  ({| mp_matrix := Some A;
      m_invdiag := factorize (st_mats st A);
      m_isInitialized := true;
      m_maxIterations := m_maxIterations cg;
      m_tolerance := m_tolerance cg;
      m_error := m_error cg;
      m_iterations := m_iterations cg;
      m_info := Success |},
   {| st_mats := st_mats st;
      st_mem := st_mem st;
      st_trace := st_trace st ++ [EvCompute A] |}).

Definition maxIterations (cg : ConjugateGradient S) (mat : SparseMatrix S)
  : nat :=
  if (m_maxIterations cg <? 0)%Z then 2 * mat_cols mat
  else Z.to_nat (m_maxIterations cg).

(** The iterate, the iteration count and the error of [cg.solve(b)]: the
    view is [selfadjointView<Lower>], the default of the solver. *)
Definition solver_run (cg : ConjugateGradient S) (b : Vector)
    (st : State S) : Vector * nat * S :=
  conjugate_gradient
    (selfadjoint_times ConjugateGradient_UpLo (cg_matrix cg st))
    (precond_solve (m_invdiag cg))
    b (setZero (List.length b))
    (maxIterations cg (cg_matrix cg st)) (m_tolerance cg).

Definition ConjugateGradient_solve (cg : ConjugateGradient S) (b : Vector)
    (st : State S) : Vector * ConjugateGradient S * State S :=
  let '(x, iters, err) := solver_run cg b st in
  (x,
   {| mp_matrix := mp_matrix cg;
      m_invdiag := m_invdiag cg;
      m_isInitialized := m_isInitialized cg;
      m_maxIterations := m_maxIterations cg;
      m_tolerance := m_tolerance cg;
      m_error := err;
      m_iterations := iters;
      m_info := if leb ops err (m_tolerance cg)
                then Success else NoConvergence |},
   {| st_mats := st_mats st;
      st_mem := st_mem st;
      st_trace := st_trace st ++ [EvSolve] |}).

Definition construct (mat_ : MatRef) (st : State S)
  : outcome (SparseRegularInverse S) * State S :=
  let mat := st_mats st mat_ in
  let m_n0 := int_of_Index (mat_rows mat) in
  let m_cg0 := ConjugateGradient_init in
  if negb (mat_rows mat =? mat_cols mat) then
    (Throw (invalid_argument "SparseRegularInverse: matrix must be square"),
     st)
  else
    let '(cg, st') := ConjugateGradient_compute m_cg0 mat_ st in
    (Return {| m_n := m_n0; m_mat := mat_; m_cg := cg |}, st').

Definition rows (this : SparseRegularInverse S) : Z := m_n this.
Definition cols (this : SparseRegularInverse S) : Z := m_n this.

Definition solve (this : SparseRegularInverse S) (x_in y_out : Ptr)
    (st : State S)
  : outcome unit * SparseRegularInverse S * State S :=
  let n := Z.to_nat (m_n this) in
  let x := load x_in n (st_mem st) in
  let '(y, cg, st') := ConjugateGradient_solve (m_cg this) x st in
  (Return tt,
   {| m_n := m_n this; m_mat := m_mat this; m_cg := cg |},
   {| st_mats := st_mats st';
      st_mem := store y_out n y (st_mem st');
      st_trace := st_trace st' |}).

Definition mat_prod (Uplo : UpLoType) (this : SparseRegularInverse S)
    (x_in y_out : Ptr) (st : State S)
  : outcome unit * SparseRegularInverse S * State S :=
  let n := Z.to_nat (m_n this) in
  let x := load x_in n (st_mem st) in
  let y := selfadjoint_times Uplo (st_mats st (m_mat this)) x in
  (Return tt, this,
   {| st_mats := st_mats st;
      st_mem := store y_out n y (st_mem st);
      st_trace := st_trace st |}).

(** A state with one matrix and the scalars of [v] from address zero. *)
Definition state_of (m : SparseMatrix S) (v : Vector) : State S :=
  {| st_mats := fun _ => m; st_mem := coeff v; st_trace := [] |}.

End WithScalar.

End Generic.

(** *** IEEE binary64 *)

(** The operations of [double]: [epsilon = 2^-52], [min = 2^-1022]. *)
Definition double_ops : Generic.ScalarOps float :=
  {| Generic.zero := 0%float;
     Generic.one := 1%float;
     Generic.add := PrimFloat.add;
     Generic.mul := PrimFloat.mul;
     Generic.div := PrimFloat.div;
     Generic.opp := PrimFloat.opp;
     Generic.eqb := PrimFloat.eqb;
     Generic.ltb := PrimFloat.ltb;
     Generic.leb := PrimFloat.leb;
     Generic.sqrt := PrimFloat.sqrt;
     Generic.epsilon := Z.ldexp 1 (-52)%Z;
     Generic.considerAsZero := Z.ldexp 1 (-1022)%Z |}.


(** *** Doubles as exact scalars *)

(** The rational that a finite double denotes. *)
Definition exact_value (f : float) : option Scalar :=
  match Prim2SF f with
  | S754_zero _ => Some s0
  | S754_finite s m e =>
      Some (Q2Qc ((if s then -1 else 1) * inject_Z (Zpos m) * Qpower 2 e))
  | _ => None
  end.


Fixpoint exact_entries (es : list (nat * float)) : option (list Entry) :=
  match es with
  | [] => Some []
  | (k, v) :: tl =>
      match exact_value v, exact_entries tl with
      | Some v', Some tl' => Some ((k, v') :: tl')
      | _, _ => None
      end
  end.

Fixpoint exact_data (d : list (list (nat * float)))
  : option (list (list Entry)) :=
  match d with
  | [] => Some []
  | es :: tl =>
      match exact_entries es, exact_data tl with
      | Some es', Some tl' => Some (es' :: tl')
      | _, _ => None
      end
  end.

(** The matrix of doubles, read as a matrix of exact scalars. *)
Definition exact_matrix (m : Generic.SparseMatrix float)
  : option SparseMatrix :=
  match exact_data (Generic.m_data m) with
  | Some d => Some {| IsRowMajor := Generic.IsRowMajor m;
                      m_innerSize := Generic.m_innerSize m;
                      m_data := d |}
  | None => None
  end.

(** *** Exact scalars as an instance *)

(** The operations of the exact scalars; [sq] stands for the square root,
    which the rationals do not have. *)
Definition exact_ops (traits : NumTraits) (sq : Scalar -> Scalar)
  : Generic.ScalarOps Scalar :=
  {| Generic.zero := s0;
     Generic.one := s1;
     Generic.add := Qcplus;
     Generic.mul := Qcmult;
     Generic.div := Qcdiv;
     Generic.opp := Qcopp;
     Generic.eqb := sc_eqb;
     Generic.ltb := sc_ltb;
     Generic.leb := sc_leb;
     Generic.sqrt := sq;
     Generic.epsilon := epsilon traits;
     Generic.considerAsZero := considerAsZero traits |}.

Definition of_exact (m : SparseMatrix) : Generic.SparseMatrix Scalar :=
  {| Generic.IsRowMajor := IsRowMajor m;
     Generic.m_innerSize := m_innerSize m;
     Generic.m_data := m_data m |}.

(** ** Observations on operators and states *)

(** The part of an operator that its [const] methods cannot write: the
    dimension, the borrowed matrix and the set-up of the solver (all but
    the [mutable] members). *)
Definition same_operator (a b : SparseRegularInverse) : Prop :=
  m_n a = m_n b /\ m_mat a = m_mat b /\
  mp_matrix (m_cg a) = mp_matrix (m_cg b) /\
  m_invdiag (m_cg a) = m_invdiag (m_cg b) /\
  m_isInitialized (m_cg a) = m_isInitialized (m_cg b) /\
  m_maxIterations (m_cg a) = m_maxIterations (m_cg b) /\
  m_tolerance (m_cg a) = m_tolerance (m_cg b).

(** The buffers [p, p + n) and [q, q + n) do not overlap. *)
Definition disjoint (p q n : nat) : Prop := p + n <= q \/ q + n <= p.

(** Number of solver set-ups recorded in a trace. *)
Fixpoint count_compute (tr : list Event) : nat :=
  match tr with
  | [] => 0
  | EvCompute _ :: tl => S (count_compute tl)
  | EvSolve :: tl => count_compute tl
  end.

(** The vector that [solve] obtains from the solver for the input at
    [x_in]. *)
Definition solve_result (traits : NumTraits) (this : SparseRegularInverse)
    (x_in : Ptr) (st : State) : Vector :=
  fst (fst (ConjugateGradient_solve traits (m_cg this)
              (load x_in (Z.to_nat (m_n this)) (st_mem st)) st)).

(** The coefficients of the triangle [uplo] of two matrices agree. *)
Definition same_triangle (uplo : UpLoType) (a b : SparseMatrix) : Prop :=
  forall row col, in_triangle uplo row col = true ->
                  mat_coeff a row col = mat_coeff b row col.

(** The frame of a call [r] made on [this] in [st] with buffers of [n]
    scalars at [x_in] and [y_out], [y] being the vector to write: the call
    returns, the [n] scalars at [y_out] are those of [y], no other scalar
    changes, the input buffer, the dimension, the borrowed matrix and the
    caller's matrices are as before. *)
Definition call_frame (n : nat) (x_in y_out : Ptr) (y : Vector)
    (this : SparseRegularInverse) (st : State)
    (r : outcome unit * SparseRegularInverse * State) : Prop :=
  fst (fst r) = Return tt /\
  (forall k, k < n -> st_mem (snd r) (y_out + k) = coeff y k) /\
  (forall a, a < y_out \/ y_out + n <= a ->
             st_mem (snd r) a = st_mem st a) /\
  load x_in n (st_mem (snd r)) = load x_in n (st_mem st) /\
  rows (snd (fst r)) = rows this /\
  cols (snd (fst r)) = cols this /\
  m_mat (snd (fst r)) = m_mat this /\
  st_mats (snd r) = st_mats st.

(** Both triangles are stored and mirror each other. *)
Definition symmetric_storage (m : SparseMatrix) : Prop :=
  forall row col, mat_coeff m row col = mat_coeff m col row.

(** The quadratic form of [A] is positive on every vector of dimension [n]
    but zero. *)
Definition positive_definite (n : nat) (A : nat -> nat -> Scalar) : Prop :=
  forall v : Vector, List.length v = n -> v <> setZero n ->
    (s0 < dot v (dense_mat_vec n A v))%Qc.

(** Nothing is stored below the diagonal, as when only the upper triangle
    is populated. *)
Definition lower_part_empty (m : SparseMatrix) : Prop :=
  forall row col, col < row -> mat_coeff m row col = s0.

(** ** Equality test on vectors *)

Fixpoint vec_eqb (u v : Vector) : bool :=
  match u, v with
  | [], [] => true
  | a :: u', b :: v' => sc_eqb a b && vec_eqb u' v'
  | _, _ => false
  end.

(** ** Concrete inputs *)

Definition q (z : Z) : Scalar := Q2Qc (inject_Z z).

(** The traits of [double]: [epsilon = 2^-52], [min = 2^-1022]. *)
Definition double_traits : NumTraits :=
  {| epsilon := Q2Qc (1 # 2 ^ 52);
     considerAsZero := Q2Qc (1 # 2 ^ 1022) |}.

(** The matrix [[4, 1], [1, 3]], column major, with the lower triangle, the
    upper triangle, or both triangles stored. *)
Definition B_lower : SparseMatrix :=
  {| IsRowMajor := false; m_innerSize := 2;
     m_data := [[(0, q 4); (1, q 1)]; [(1, q 3)]] |}.
Definition B_upper : SparseMatrix :=
  {| IsRowMajor := false; m_innerSize := 2;
     m_data := [[(0, q 4)]; [(0, q 1); (1, q 3)]] |}.
Definition B_full : SparseMatrix :=
  {| IsRowMajor := false; m_innerSize := 2;
     m_data := [[(0, q 4); (1, q 1)]; [(0, q 1); (1, q 3)]] |}.

(** The identity of dimension two and an empty matrix of three rows and
    four columns. *)
Definition I_2 : SparseMatrix :=
  {| IsRowMajor := false; m_innerSize := 2;
     m_data := [[(0, q 1)]; [(1, q 1)]] |}.
Definition M_3x4 : SparseMatrix :=
  {| IsRowMajor := false; m_innerSize := 3; m_data := [[]; []; []; []] |}.

(** A state with one matrix, the scalars of [v] from address zero on (zero
    elsewhere) and an empty trace. *)
Definition state_of (m : SparseMatrix) (v : Vector) : State :=
  {| st_mats := fun _ => m; st_mem := coeff v; st_trace := [] |}.

(** The operator constructed on [B_lower], and the state after its
    construction in a state whose buffer holds [4, 1]. *)
Definition example_operator : SparseRegularInverse :=
  {| m_n := 2; m_mat := 0;
     m_cg := fst (ConjugateGradient_compute
                    (ConjugateGradient_init double_traits) 0
                    (state_of B_lower [q 4; q 1])) |}.
Definition example_state : State :=
  snd (construct double_traits 0 (state_of B_lower [q 4; q 1])).

(** The same for [B_upper]. *)
Definition upper_operator : SparseRegularInverse :=
  {| m_n := 2; m_mat := 0;
     m_cg := fst (ConjugateGradient_compute
                    (ConjugateGradient_init double_traits) 0
                    (state_of B_upper [q 4; q 1])) |}.
Definition upper_state : State :=
  snd (construct double_traits 0 (state_of B_upper [q 4; q 1])).

(** Construction on [m], then [solve] on the vector [x]: the solution, or
    nothing when the constructor throws. *)
Definition solve_on (traits : NumTraits) (m : SparseMatrix) (x : Vector)
  : option Vector :=
  let n := List.length x in
  match construct traits 0 (state_of m x) with
  | (Return op, st) =>
      Some (load n n (st_mem (snd (solve traits op 0 n st))))
  | (Throw _, _) => None
  end.

(** Construction on [m], then [mat_prod] on the vector [x]. *)
Definition mat_prod_on (Uplo : UpLoType) (traits : NumTraits)
    (m : SparseMatrix) (x : Vector) : option Vector :=
  let n := List.length x in
  match construct traits 0 (state_of m x) with
  | (Return op, st) =>
      Some (load n n (st_mem (snd (mat_prod Uplo op 0 n st))))
  | (Throw _, _) => None
  end.

(** Construction on [m], then [mat_prod] on [x] and [solve] on its output,
    all on one operator: the product and the solution. *)
Definition round_trip (Uplo : UpLoType) (traits : NumTraits)
    (m : SparseMatrix) (x : Vector) : option (Vector * Vector) :=
  let n := List.length x in
  match construct traits 0 (state_of m x) with
  | (Return op, st) =>
      let '(_, op1, st1) := mat_prod Uplo op 0 n st in
      let '(_, op2, st2) := solve traits op1 n (2 * n) st1 in
      Some (load n n (st_mem st2), load (2 * n) n (st_mem st2))
  | (Throw _, _) => None
  end.

(** *** Inputs at double *)



(** [[1, 1e4], [1e4, 1e8 + 1]], of determinant one, stored by columns with
    both triangles. *)
Definition D_ill : Generic.SparseMatrix float :=
  {| Generic.IsRowMajor := false; Generic.m_innerSize := 2;
     Generic.m_data := [[(0, 1%float); (1, 10000%float)];
                        [(0, 10000%float); (1, 100000001%float)]] |}.

(** * Properties *)

Ltac qring := ring.

(* Equality of two triples that differ in the middle component only. *)
Ltac mid_eq :=
  apply f_equal2; [apply f_equal2; [reflexivity|qring]|reflexivity].

(** ** Lemmas on dense vectors and finite sums *)

Lemma add_at_length (i : nat) (a : Scalar) (v : Vector) :
  List.length (add_at i a v) = List.length v.
Proof.
  revert i; induction v as [|y tl IH]; intros [|i]; simpl; auto.
Qed.

Lemma coeff_add_at (i : nat) (a : Scalar) (v : Vector) (r : nat) :
  r < List.length v ->
  coeff (add_at i a v) r = (coeff v r + (if r =? i then a else s0))%Qc.
Proof.
  unfold coeff. revert i r.
  induction v as [|y tl IH]; intros i r Hr; simpl in Hr; [lia|].
  destruct i as [|i], r as [|r]; simpl; try qring.
  rewrite IH by lia. reflexivity.
Qed.

Lemma coeff_setZero (n r : nat) : coeff (setZero n) r = s0.
Proof.
  unfold coeff, setZero. revert r.
  induction n as [|n IH]; intros [|r]; simpl; auto.
Qed.

Lemma sum_n_ext (n : nat) (f g : nat -> Scalar) :
  (forall k, k < n -> f k = g k) -> sum_n n f = sum_n n g.
Proof.
  induction n as [|n IH]; intros H; simpl; [reflexivity|].
  rewrite IH by (intros; apply H; lia). rewrite H by lia. reflexivity.
Qed.

Lemma sum_n_add (n : nat) (f g : nat -> Scalar) :
  sum_n n (fun k => (f k + g k)%Qc) = (sum_n n f + sum_n n g)%Qc.
Proof.
  induction n as [|n IH]; simpl; [qring|]. rewrite IH. ring.
Qed.

Lemma sum_n_zero (n : nat) (f : nat -> Scalar) :
  (forall k, k < n -> f k = s0) -> sum_n n f = s0.
Proof.
  induction n as [|n IH]; intros H; simpl; [reflexivity|].
  rewrite IH by (intros; apply H; lia). rewrite H by lia. qring.
Qed.

(** A sum with one non-zero term. *)
Lemma sum_n_delta (n r : nat) (f : nat -> Scalar) :
  r < n -> sum_n n (fun k => if r =? k then f k else s0) = f r.
Proof.
  induction n as [|n IH]; intros Hr; [lia|]. simpl.
  destruct (Nat.eq_dec r n) as [->|Hne].
  - rewrite Nat.eqb_refl. rewrite sum_n_zero; [qring|].
    intros k Hk. destruct (Nat.eqb_spec n k); [lia|reflexivity].
  - rewrite IH by lia. destruct (Nat.eqb_spec r n); [lia|qring].
Qed.

Lemma sum_n_shift (n : nat) (f : nat -> Scalar) :
  sum_n (S n) f = (f O + sum_n n (fun k => f (S k)))%Qc.
Proof.
  induction n as [|n IH]; [simpl; qring|].
  change (sum_n (S (S n)) f) with (sum_n (S n) f + f (S n))%Qc.
  rewrite IH. simpl. ring.
Qed.

Lemma wsum_add (g h : nat -> Scalar) (es : list Entry) :
  wsum (fun k => (g k + h k)%Qc) es = (wsum g es + wsum h es)%Qc.
Proof.
  induction es as [|[k v] tl IH]; simpl; [qring|]. rewrite IH. ring.
Qed.

Lemma wsum_scale (a : Scalar) (g : nat -> Scalar) (es : list Entry) :
  wsum (fun k => (a * g k)%Qc) es = (a * wsum g es)%Qc.
Proof.
  induction es as [|[k v] tl IH]; simpl; [qring|]. rewrite IH. ring.
Qed.

Lemma wsum_zero (g : nat -> Scalar) (es : list Entry) :
  (forall e, In e es -> g (fst e) = s0) -> wsum g es = s0.
Proof.
  induction es as [|[k v] tl IH]; intros H; simpl; [reflexivity|].
  rewrite IH by (intros; apply H; right; assumption).
  pose proof (H (k, v) (or_introl eq_refl)) as Hk. simpl in Hk.
  rewrite Hk. qring.
Qed.

(** *** Sorted inner vectors *)

Lemma increasing_from_In (lo : nat) (es : list Entry) (e : Entry) :
  increasing_from lo es = true -> In e es -> lo <= fst e.
Proof.
  revert lo. induction es as [|[k v] tl IH]; intros lo H Hin; [destruct Hin|].
  simpl in H. apply andb_true_iff in H as [H1 H2]. apply Nat.leb_le in H1.
  destruct Hin as [<-|Hin]; [exact H1|].
  specialize (IH _ H2 Hin). lia.
Qed.

Lemma entry_at_above (lo i : nat) (es : list Entry) :
  increasing_from lo es = true -> i < lo -> entry_at i es = s0.
Proof.
  revert lo. induction es as [|[k v] tl IH]; intros lo H Hi; [reflexivity|].
  simpl in H. apply andb_true_iff in H as [H1 H2]. apply Nat.leb_le in H1.
  simpl. destruct (Nat.eqb_spec k i); [lia|].
  apply (IH (S k)); [assumption|lia].
Qed.

(** The weighted sum over a sorted, bounded inner vector is the dense sum of
    the looked-up coefficients. *)
Lemma wsum_dense (n lo : nat) (g : nat -> Scalar) (es : list Entry) :
  increasing_from lo es = true -> inner_bounded n es = true ->
  wsum g es = sum_n n (fun k => (entry_at k es * g k)%Qc).
Proof.
  revert lo. induction es as [|[k v] tl IH]; intros lo Hs Hb; simpl.
  - symmetry; apply sum_n_zero; intros; qring.
  - simpl in Hs, Hb.
    apply andb_true_iff in Hs as [_ Hs]. apply andb_true_iff in Hb as [Hk Hb].
    apply Nat.ltb_lt in Hk. simpl in Hk.
    rewrite (IH (S k) Hs Hb).
    rewrite <- (sum_n_delta n k (fun i => (v * g i)%Qc) Hk).
    rewrite <- sum_n_add. apply sum_n_ext. intros i Hi.
    destruct (Nat.eqb_spec k i) as [->|Hne].
    + rewrite (entry_at_above (S i) i tl Hs) by lia. qring.
    + qring.
Qed.

Lemma wsum_ext_in (g h : nat -> Scalar) (es : list Entry) :
  (forall e, In e es -> g (fst e) = h (fst e)) -> wsum g es = wsum h es.
Proof.
  induction es as [|[k v] tl IH]; intros H; simpl; [reflexivity|].
  rewrite IH by (intros; apply H; right; assumption).
  pose proof (H (k, v) (or_introl eq_refl)) as Hk. simpl in Hk.
  rewrite Hk. reflexivity.
Qed.

Lemma scatter_first (j : nat) (rhs : Vector) (rhs_j : Scalar)
    (es : list Entry) :
  forall (lo : nat) (res_j : Scalar) (res : Vector),
    increasing_from lo es = true ->
    exists res',
      scatter true j rhs rhs_j es res_j res =
        (skip_below j es,
         (res_j + wsum (fun k => if k <? j then coeff rhs k else s0) es)%Qc,
         res') /\
      List.length res' = List.length res /\
      forall r, r < List.length res ->
        coeff res' r =
          (coeff res r +
           wsum (fun k => if (k <? j) && (r =? k) then rhs_j else s0) es)%Qc.
Proof.
  induction es as [|[k v] tl IH]; intros lo res_j res Hs.
  - exists res. simpl. split; [mid_eq|].
    split; [reflexivity|]. intros; qring.
  - simpl in Hs. apply andb_true_iff in Hs as [_ Hs]. simpl.
    destruct (Nat.ltb_spec k j) as [Hlt|Hge].
    + destruct (IH (S k) (res_j + v * coeff rhs k)%Qc
                   (add_at k (v * rhs_j)%Qc res) Hs) as (res' & E & L & C).
      exists res'. rewrite E. split; [mid_eq|].
      rewrite L, add_at_length. split; [reflexivity|].
      intros r Hr. rewrite C by (rewrite add_at_length; exact Hr).
      rewrite coeff_add_at by exact Hr. simpl.
      destruct (r =? k); qring.
    + exists res.
      assert (Z1 : forall g : nat -> Scalar,
                 wsum (fun i => if i <? j then g i else s0) tl = s0).
      { intros g. apply wsum_zero. intros e He.
        pose proof (increasing_from_In _ _ _ Hs He).
        destruct (Nat.ltb_spec (fst e) j); [lia|reflexivity]. }
      assert (Z2 : forall r,
                 wsum (fun i => if (i <? j) && (r =? i) then rhs_j else s0) tl
                 = s0).
      { intros r. apply wsum_zero. intros e He.
        pose proof (increasing_from_In _ _ _ Hs He).
        destruct (Nat.ltb_spec (fst e) j); [lia|reflexivity]. }
      rewrite Z1. split; [mid_eq|].
      split; [reflexivity|]. intros r _. rewrite Z2. simpl. qring.
Qed.

Lemma scatter_second (j : nat) (rhs : Vector) (rhs_j : Scalar)
    (es : list Entry) :
  forall (res_j : Scalar) (res : Vector),
    exists res',
      scatter false j rhs rhs_j es res_j res =
        ([], (res_j + wsum (coeff rhs) es)%Qc, res') /\
      List.length res' = List.length res /\
      forall r, r < List.length res ->
        coeff res' r =
          (coeff res r + wsum (fun k => if r =? k then rhs_j else s0) es)%Qc.
Proof.
  induction es as [|[k v] tl IH]; intros res_j res.
  - exists res. simpl. split; [mid_eq|].
    split; [reflexivity|]. intros; qring.
  - simpl.
    destruct (IH (res_j + v * coeff rhs k)%Qc (add_at k (v * rhs_j)%Qc res))
      as (res' & E & L & C).
    exists res'. rewrite E. split; [mid_eq|].
    rewrite L, add_at_length. split; [reflexivity|].
    intros r Hr. rewrite C by (rewrite add_at_length; exact Hr).
    rewrite coeff_add_at by exact Hr.
    destruct (r =? k); qring.
Qed.

(** The diagonal step after the skip loop adds the diagonal coefficient. *)
Lemma diag_step_skip (alpha : Scalar) (j : nat) (rhs : Vector)
    (es : list Entry) :
  forall (lo : nat) (res : Vector),
    increasing_from lo es = true ->
    exists it' res',
      diag_step alpha j rhs (skip_below j es) res = (it', res') /\
      List.length res' = List.length res /\
      (forall g, wsum g it' = wsum (fun k => if j <? k then g k else s0) es) /\
      forall r, r < List.length res ->
        coeff res' r =
          (coeff res r +
           wsum (fun k => if k =? j
                          then (if r =? j then alpha * coeff rhs j else s0)
                          else s0) es)%Qc.
Proof.
  induction es as [|[k v] tl IH]; intros lo res Hs.
  - exists [], res. simpl. repeat split; intros; qring.
  - simpl in Hs. apply andb_true_iff in Hs as [_ Hs]. simpl.
    destruct (Nat.ltb_spec k j) as [Hlt|Hge].
    + destruct (IH (S k) res Hs) as (it' & res' & E & L & G & C).
      exists it', res'. rewrite E. repeat split; [exact L| |].
      * intros g. rewrite G. destruct (Nat.ltb_spec j k); [lia|]. qring.
      * intros r Hr. rewrite (C r Hr).
        destruct (Nat.eqb_spec k j); [lia|]. qring.
    + assert (Hab : forall e, In e tl -> j < fst e).
      { intros e He. pose proof (increasing_from_In _ _ _ Hs He). lia. }
      assert (Z : forall h : nat -> Scalar,
                 wsum (fun i => if i =? j then h i else s0) tl = s0).
      { intros h. apply wsum_zero. intros e He. specialize (Hab e He).
        destruct (Nat.eqb_spec (fst e) j); [lia|reflexivity]. }
      assert (A : forall g : nat -> Scalar,
                 wsum (fun i => if j <? i then g i else s0) tl = wsum g tl).
      { intros g. apply wsum_ext_in. intros e He. specialize (Hab e He).
        destruct (Nat.ltb_spec j (fst e)); [reflexivity|lia]. }
      unfold diag_step. destruct (Nat.eqb_spec k j) as [->|Hne].
      * exists tl, (add_at j (alpha * v * coeff rhs j)%Qc res).
        split; [reflexivity|]. split; [apply add_at_length|]. split.
        -- intros g. simpl. rewrite A. rewrite ?Nat.ltb_irrefl. qring.
        -- intros r Hr. rewrite coeff_add_at by exact Hr. simpl.
           rewrite ?Nat.eqb_refl.
           rewrite (Z (fun _ => if r =? j then (alpha * coeff rhs j)%Qc
                                 else s0)).
           destruct (r =? j); qring.
      * exists ((k, v) :: tl), res.
        split; [reflexivity|]. split; [reflexivity|]. split.
        -- intros g. simpl. rewrite A.
           destruct (Nat.ltb_spec j k); [reflexivity|lia].
        -- intros r _. simpl. destruct (Nat.eqb_spec k j); [lia|].
           rewrite (Z (fun _ => if r =? j then (alpha * coeff rhs j)%Qc
                                 else s0)). qring.
Qed.

Lemma process_outer_spec (firstHalf : bool) (alpha : Scalar) (rhs : Vector)
    (j lo : nat) (es : list Entry) (res : Vector) :
  increasing_from lo es = true ->
  List.length (process_outer firstHalf alpha rhs j es res) = List.length res /\
  forall r, r < List.length res ->
    coeff (process_outer firstHalf alpha rhs j es res) r =
      (coeff res r + wsum (outer_weight firstHalf alpha rhs j r) es)%Qc.
Proof.
  intros Hs. unfold process_outer. destruct firstHalf; simpl negb; cbv iota.
  - destruct (scatter_first j rhs (alpha * coeff rhs j)%Qc es lo s0 res Hs)
      as (res2 & E & L2 & C2).
    rewrite E.
    set (res_j := (s0 + wsum (fun k => if k <? j then coeff rhs k else s0) es)%Qc).
    destruct (diag_step_skip alpha j rhs es lo
                (add_at j (alpha * res_j)%Qc res2) Hs)
      as (it' & res4 & E4 & L4 & _ & C4).
    rewrite E4. simpl snd. rewrite add_at_length in L4, C4.
    split; [congruence|]. intros r Hr.
    rewrite C4 by (rewrite L2; exact Hr).
    rewrite coeff_add_at by (rewrite L2; exact Hr).
    rewrite (C2 r Hr). subst res_j.
    set (a1 := if r =? j then alpha else s0).
    transitivity
      (coeff res r +
       wsum (fun k =>
               (if (k <? j) && (r =? k) then alpha * coeff rhs j else s0) +
               a1 * (if k <? j then coeff rhs k else s0) +
               (if k =? j then if r =? j then alpha * coeff rhs j else s0
                else s0)) es)%Qc.
    + rewrite !wsum_add, wsum_scale. subst a1. destruct (r =? j); qring.
    + f_equal. apply wsum_ext_in. intros [k v] _. simpl fst.
      unfold outer_weight, in_half. subst a1.
      destruct (Nat.ltb_spec k j), (Nat.eqb_spec k j), (r =? k), (r =? j);
        simpl; try lia; qring.
  - destruct (diag_step_skip alpha j rhs es lo res Hs)
      as (i1 & res1 & E1 & L1 & G1 & C1).
    rewrite E1.
    destruct (scatter_second j rhs (alpha * coeff rhs j)%Qc i1 s0 res1)
      as (res2 & E2 & L2 & C2).
    rewrite E2. rewrite add_at_length.
    split; [congruence|]. intros r Hr.
    rewrite coeff_add_at by (rewrite L2, L1; exact Hr).
    rewrite C2 by (rewrite L1; exact Hr).
    rewrite (C1 r Hr). rewrite !G1.
    set (a1 := if r =? j then alpha else s0).
    transitivity
      (coeff res r +
       wsum (fun k =>
               (if k =? j then if r =? j then alpha * coeff rhs j else s0
                else s0) +
               (if j <? k then if r =? k then alpha * coeff rhs j else s0
                else s0) +
               a1 * (if j <? k then coeff rhs k else s0)) es)%Qc.
    + rewrite !wsum_add, wsum_scale. subst a1. destruct (r =? j); qring.
    + f_equal. apply wsum_ext_in. intros [k v] _. simpl fst.
      unfold outer_weight, in_half. subst a1.
      destruct (Nat.ltb_spec j k), (Nat.eqb_spec k j), (r =? k), (r =? j);
        simpl; try lia; qring.
Qed.

Lemma outer_loop_spec (firstHalf : bool) (alpha : Scalar) (rhs : Vector)
    (outers : list (list Entry)) :
  forall (j : nat) (res : Vector),
    forallb inner_sorted outers = true ->
    List.length (outer_loop firstHalf alpha rhs j outers res)
      = List.length res /\
    forall r, r < List.length res ->
      coeff (outer_loop firstHalf alpha rhs j outers res) r =
        (coeff res r + outer_sum firstHalf alpha rhs r j outers)%Qc.
Proof.
  induction outers as [|es tl IH]; intros j res Hs; simpl.
  - split; [reflexivity|]. intros; qring.
  - simpl in Hs. apply andb_true_iff in Hs as [Hes Htl].
    destruct (process_outer_spec firstHalf alpha rhs j 0 es res Hes) as [L C].
    destruct (IH (S j) (process_outer firstHalf alpha rhs j es res) Htl)
      as [L' C'].
    split; [congruence|]. intros r Hr.
    rewrite C' by (rewrite L; exact Hr). rewrite (C r Hr). qring.
Qed.

Lemma outer_sum_dense (firstHalf : bool) (alpha : Scalar) (rhs : Vector)
    (r : nat) (outers : list (list Entry)) :
  forall j,
    outer_sum firstHalf alpha rhs r j outers =
      sum_n (List.length outers)
            (fun t => wsum (outer_weight firstHalf alpha rhs (j + t) r)
                           (nth t outers [])).
Proof.
  induction outers as [|es tl IH]; intros j; [reflexivity|].
  cbn [outer_sum List.length]. rewrite sum_n_shift, IH.
  rewrite Nat.add_0_r. f_equal. apply sum_n_ext. intros t _.
  simpl nth. replace (S j + t) with (j + S t) by lia. reflexivity.
Qed.

(** A double sum whose terms carry a factor [r = k] or [r = j]. *)
Lemma double_sum_collapse (n r : nat) (F1 F2 : nat -> nat -> Scalar) :
  r < n ->
  sum_n n (fun j =>
    sum_n n (fun k => ((if r =? k then F1 j k else s0) +
                       (if r =? j then F2 j k else s0))%Qc))
  = sum_n n (fun c => (F1 c r + F2 r c)%Qc).
Proof.
  intros Hr.
  transitivity
    (sum_n n (fun j =>
       (F1 j r + (if r =? j then sum_n n (F2 j) else s0))%Qc)).
  - apply sum_n_ext. intros j _.
    rewrite sum_n_add, (sum_n_delta n r (F1 j) Hr). f_equal.
    destruct (r =? j); [reflexivity|]. apply sum_n_zero; reflexivity.
  - rewrite sum_n_add, (sum_n_delta n r (fun j => sum_n n (F2 j)) Hr).
    rewrite <- sum_n_add. reflexivity.
Qed.

Lemma wf_matrix_inner (m : SparseMatrix) (j : nat) :
  wf_matrix m = true ->
  increasing_from 0 (innerVector m j) = true /\
  inner_bounded (innerSize m) (innerVector m j) = true.
Proof.
  intros Hwf. unfold innerVector.
  destruct (Nat.lt_ge_cases j (List.length (m_data m))) as [Hj|Hj].
  - unfold wf_matrix in Hwf. rewrite forallb_forall in Hwf.
    specialize (Hwf _ (nth_In (m_data m) [] Hj)).
    apply andb_true_iff in Hwf. exact Hwf.
  - rewrite nth_overflow by exact Hj. split; reflexivity.
Qed.

Lemma wf_matrix_sorted (m : SparseMatrix) :
  wf_matrix m = true -> forallb inner_sorted (m_data m) = true.
Proof.
  unfold wf_matrix. rewrite !forallb_forall. intros H es Hes.
  specialize (H es Hes). apply andb_true_iff in H. tauto.
Qed.

(** Coefficient [r] of the self-adjoint product, as a dense sum. *)
Lemma selfadjoint_times_coeff (mode : UpLoType) (m : SparseMatrix)
    (x : Vector) (r : nat) :
  wf_matrix m = true -> mat_rows m = mat_cols m -> r < mat_rows m ->
  coeff (selfadjoint_times mode m x) r =
    sum_n (mat_rows m) (fun c => (sym_coeff mode m r c * coeff x c)%Qc).
Proof.
  intros Hwf Hsq Hr.
  assert (Ho : outerSize m = mat_rows m)
    by (unfold mat_rows, mat_cols in *; destruct (IsRowMajor m); congruence).
  assert (Hi : innerSize m = mat_rows m)
    by (unfold mat_rows, mat_cols in *; destruct (IsRowMajor m); congruence).
  set (n := mat_rows m) in *.
  unfold selfadjoint_times, sparse_selfadjoint_time_dense_product.
  set (fh := ProcessFirstHalf mode (IsRowMajor m)).
  destruct (outer_loop_spec fh s1 x (m_data m) 0 (setZero n)
              (wf_matrix_sorted m Hwf)) as [_ C].
  rewrite C by (unfold setZero; rewrite repeat_length; exact Hr).
  rewrite coeff_setZero, outer_sum_dense.
  fold (outerSize m). rewrite Ho.
  set (e := fun j k => entry_at k (innerVector m j)).
  transitivity
    (sum_n n (fun j => sum_n n (fun k =>
       ((if r =? k
         then (if in_half fh j k then e j k * coeff x j else s0) else s0) +
        (if r =? j
         then (if in_half fh j k then e j k * coeff x k
               else if k =? j then e j k * coeff x j else s0)
         else s0))%Qc))).
  - transitivity
      (sum_n n (fun t => wsum (outer_weight fh s1 x t r) (innerVector m t)));
      [unfold innerVector; cbn [Nat.add]; qring|].
    apply sum_n_ext. intros j _.
    destruct (wf_matrix_inner m j Hwf) as [Hs Hb]. rewrite Hi in Hb.
    rewrite (wsum_dense n 0 _ _ Hs Hb). apply sum_n_ext. intros k _.
    unfold outer_weight, e.
    destruct (in_half fh j k), (k =? j), (r =? k), (r =? j); qring.
  - rewrite (double_sum_collapse n r _ _ Hr). apply sum_n_ext. intros c _.
    unfold sym_coeff, mat_coeff, in_triangle, in_half, e, fh, ProcessFirstHalf.
    destruct (Nat.eqb_spec r c) as [->|Hne].
    + rewrite !Nat.ltb_irrefl, Nat.leb_refl.
      destruct mode, (IsRowMajor m); simpl; rewrite Nat.eqb_refl; qring.
    + destruct mode, (IsRowMajor m); simpl;
        destruct (Nat.ltb_spec r c), (Nat.ltb_spec c r),
                 (Nat.leb_spec r c), (Nat.leb_spec c r),
                 (Nat.eqb_spec c r); try lia; qring.
Qed.

(** The product with the self-adjoint view is the dense product with the
    mirrored matrix. *)
Lemma selfadjoint_times_dense (mode : UpLoType) (m : SparseMatrix)
    (x : Vector) :
  wf_matrix m = true -> mat_rows m = mat_cols m ->
  selfadjoint_times mode m x =
    dense_mat_vec (mat_rows m) (sym_coeff mode m) x.
Proof.
  intros Hwf Hsq.
  assert (L : List.length (selfadjoint_times mode m x) = mat_rows m).
  { unfold selfadjoint_times, sparse_selfadjoint_time_dense_product.
    destruct (outer_loop_spec (ProcessFirstHalf mode (IsRowMajor m)) s1 x
                (m_data m) 0 (setZero (mat_rows m))
                (wf_matrix_sorted m Hwf)) as [L _].
    rewrite L. apply repeat_length. }
  apply (nth_ext _ _ s0 s0).
  - rewrite L. unfold dense_mat_vec. now rewrite length_map, length_seq.
  - intros r Hr. rewrite L in Hr.
    change (nth r (selfadjoint_times mode m x) s0)
      with (coeff (selfadjoint_times mode m x) r).
    rewrite (selfadjoint_times_coeff mode m x r Hwf Hsq Hr).
    unfold dense_mat_vec.
    rewrite (nth_indep _ s0 ((fun r0 => sum_n (mat_rows m)
               (fun c => (sym_coeff mode m r0 c * coeff x c)%Qc)) 0))
      by (now rewrite length_map, length_seq).
    rewrite (map_nth (fun r0 => sum_n (mat_rows m)
               (fun c => (sym_coeff mode m r0 c * coeff x c)%Qc))).
    rewrite seq_nth by exact Hr. reflexivity.
Qed.

(** ** Buffers *)

Lemma load_length (p : Ptr) (n : nat) (mem : Ptr -> Scalar) :
  List.length (load p n mem) = n.
Proof. unfold load. now rewrite length_map, length_seq. Qed.

Lemma coeff_load (p : Ptr) (n k : nat) (mem : Ptr -> Scalar) :
  k < n -> coeff (load p n mem) k = mem (p + k).
Proof.
  intros Hk. unfold coeff, load.
  rewrite (nth_indep _ s0 ((fun i => mem (p + i)) 0))
    by (now rewrite length_map, length_seq).
  rewrite (map_nth (fun i => mem (p + i))). now rewrite seq_nth.
Qed.

Lemma store_inside (p n k : nat) (v : Vector) (mem : Ptr -> Scalar) :
  k < n -> store p n v mem (p + k) = coeff v k.
Proof.
  intros Hk. unfold store.
  destruct (Nat.leb_spec p (p + k)); [|lia].
  destruct (Nat.ltb_spec (p + k) (p + n)); [|lia].
  simpl. f_equal. lia.
Qed.

Lemma store_outside (p n a : nat) (v : Vector) (mem : Ptr -> Scalar) :
  a < p \/ p + n <= a -> store p n v mem a = mem a.
Proof.
  intros Ha. unfold store.
  destruct (Nat.leb_spec p a), (Nat.ltb_spec a (p + n)); simpl;
    try reflexivity; lia.
Qed.

Lemma load_ext (p n : nat) (mem mem' : Ptr -> Scalar) :
  (forall k, k < n -> mem' (p + k) = mem (p + k)) ->
  load p n mem' = load p n mem.
Proof.
  intros H. unfold load. apply map_ext_in. intros k Hk.
  apply in_seq in Hk. apply H. lia.
Qed.

Lemma load_store_disjoint (x y n : nat) (v : Vector) (mem : Ptr -> Scalar) :
  disjoint x y n -> load x n (store y n v mem) = load x n mem.
Proof.
  intros D. apply load_ext. intros k Hk. apply store_outside.
  unfold disjoint in D. lia.
Qed.

Lemma load_store_same (p n : nat) (v : Vector) (mem : Ptr -> Scalar) :
  List.length v = n -> load p n (store p n v mem) = v.
Proof.
  intros L. apply (nth_ext _ _ s0 s0).
  - now rewrite load_length.
  - intros k Hk. rewrite load_length in Hk.
    change (nth k (load p n (store p n v mem)) s0)
      with (coeff (load p n (store p n v mem)) k).
    rewrite (coeff_load _ _ _ _ Hk). now apply store_inside.
Qed.

(** ** The methods, unfolded *)

Lemma solve_unfold (traits : NumTraits) (this : SparseRegularInverse)
    (x_in y_out : Ptr) (st : State) :
  solve traits this x_in y_out st =
    (Return tt,
     {| m_n := m_n this; m_mat := m_mat this;
        m_cg := snd (fst (ConjugateGradient_solve traits (m_cg this)
                  (load x_in (Z.to_nat (m_n this)) (st_mem st)) st)) |},
     {| st_mats := st_mats st;
        st_mem := store y_out (Z.to_nat (m_n this))
                        (solve_result traits this x_in st) (st_mem st);
        st_trace := st_trace st ++ [EvSolve] |}).
Proof.
  unfold solve, solve_result, ConjugateGradient_solve.
  destruct (conjugate_gradient _ _ _ _ _ _ _) as [[x iters] err].
  reflexivity.
Qed.

Lemma solve_same_operator (traits : NumTraits) (this : SparseRegularInverse)
    (x_in y_out : Ptr) (st : State) :
  same_operator this (snd (fst (solve traits this x_in y_out st))).
Proof.
  rewrite solve_unfold. unfold ConjugateGradient_solve.
  destruct (conjugate_gradient _ _ _ _ _ _ _) as [[x iters] err].
  repeat split.
Qed.

Lemma same_operator_refl (a : SparseRegularInverse) : same_operator a a.
Proof. repeat split. Qed.

Lemma same_operator_trans (a b c : SparseRegularInverse) :
  same_operator a b -> same_operator b c -> same_operator a c.
Proof.
  unfold same_operator.
  intros (A1 & A2 & A3 & A4 & A5 & A6 & A7) (B1 & B2 & B3 & B4 & B5 & B6 & B7).
  repeat split; congruence.
Qed.

(** A call never throws, keeps the set-up of the operator and the caller's
    matrices, and only appends to the trace events that are not set-ups. *)
Lemma call_spec (Uplo : UpLoType) (traits : NumTraits) (c : Call)
    (this : SparseRegularInverse) (st : State) :
  exists v this' st',
    call Uplo traits c this st = (Return v, this', st') /\
    same_operator this this' /\
    st_mats st' = st_mats st /\
    count_compute (st_trace st') = count_compute (st_trace st).
Proof.
  destruct c as [| |x_in y_out|x_in y_out]; simpl.
  - exists (VInt (rows this)), this, st.
    repeat split.
  - exists (VInt (cols this)), this, st.
    repeat split.
  - pose proof (solve_same_operator traits this x_in y_out st) as S.
    rewrite solve_unfold in *. simpl in *.
    eexists _, _, _. split; [reflexivity|]. split; [exact S|].
    split; [reflexivity|]. simpl.
    induction (st_trace st) as [|[r|] tl IH]; simpl; congruence.
  - unfold mat_prod. eexists _, _, _. split; [reflexivity|].
    repeat split.
Qed.

Lemma run_spec (Uplo : UpLoType) (traits : NumTraits) (cs : list Call) :
  forall (this : SparseRegularInverse) (st : State),
    same_operator this (fst (run Uplo traits cs this st)) /\
    st_mats (snd (run Uplo traits cs this st)) = st_mats st /\
    count_compute (st_trace (snd (run Uplo traits cs this st)))
      = count_compute (st_trace st).
Proof.
  induction cs as [|c tl IH]; intros this st; simpl.
  - repeat split.
  - destruct (call_spec Uplo traits c this st)
      as (v & this' & st' & E & S & M & T).
    rewrite E. destruct (IH this' st') as (S' & M' & T').
    split; [exact (same_operator_trans _ _ _ S S')|].
    split; congruence.
Qed.

Lemma construct_spec (traits : NumTraits) (mat_ : MatRef) (st : State) :
  construct traits mat_ st =
    if mat_rows (st_mats st mat_) =? mat_cols (st_mats st mat_) then
      (Return
         {| m_n := int_of_Index (mat_rows (st_mats st mat_));
            m_mat := mat_;
            m_cg := fst (ConjugateGradient_compute
                           (ConjugateGradient_init traits) mat_ st) |},
       {| st_mats := st_mats st;
          st_mem := st_mem st;
          st_trace := st_trace st ++ [EvCompute mat_] |})
    else
      (Throw (invalid_argument "SparseRegularInverse: matrix must be square"),
       st).
Proof.
  unfold construct.
  destruct (mat_rows (st_mats st mat_) =? mat_cols (st_mats st mat_));
    reflexivity.
Qed.

Lemma int_of_Index_fits (i : nat) :
  (Z.of_nat i <= INT_MAX)%Z -> int_of_Index i = Z.of_nat i.
Proof.
  unfold int_of_Index, INT_MAX. intros H.
  rewrite Z.mod_small by lia. lia.
Qed.

Lemma sc_eqb_eq (a b : Scalar) : sc_eqb a b = true <-> a = b.
Proof.
  unfold sc_eqb. rewrite Qeq_bool_iff. split.
  - apply Qc_is_canon.
  - intros ->. reflexivity.
Qed.

Lemma vec_eqb_eq (u v : Vector) : vec_eqb u v = true <-> u = v.
Proof.
  revert v. induction u as [|a u IH]; intros [|b v]; simpl;
    try (split; [reflexivity || discriminate | reflexivity || discriminate]).
  rewrite andb_true_iff, sc_eqb_eq, IH. split.
  - intros [-> ->]. reflexivity.
  - intros E. injection E as -> ->. split; reflexivity.
Qed.

Ltac vec_eq := apply vec_eqb_eq; vm_compute; reflexivity.
Ltac vec_neq :=
  let H := fresh in
  intro H; apply vec_eqb_eq in H; vm_compute in H; discriminate H.

(** ** Constructed operators *)

(** What a successful construction establishes, and what every later call
    keeps. *)
Lemma constructed_run (Uplo : UpLoType) (traits : NumTraits) (mat_ : MatRef)
    (st0 st1 st : State) (this0 this : SparseRegularInverse)
    (cs : list Call) :
  construct traits mat_ st0 = (Return this0, st1) ->
  run Uplo traits cs this0 st1 = (this, st) ->
  mat_rows (st_mats st0 mat_) = mat_cols (st_mats st0 mat_) /\
  m_n this = int_of_Index (mat_rows (st_mats st0 mat_)) /\
  m_mat this = mat_ /\
  mp_matrix (m_cg this) = Some mat_ /\
  m_invdiag (m_cg this) = factorize (st_mats st0 mat_) /\
  m_isInitialized (m_cg this) = true /\
  m_maxIterations (m_cg this) = (-1)%Z /\
  m_tolerance (m_cg this) = epsilon traits /\
  st_mats st = st_mats st0 /\
  count_compute (st_trace st) = S (count_compute (st_trace st0)).
Proof.
  intros Hc Hr. rewrite construct_spec in Hc.
  destruct (run_spec Uplo traits cs this0 st1)
    as ((S1 & S2 & S3 & S4 & S5 & S6 & S7) & M & T).
  rewrite Hr in *. simpl in *.
  destruct (Nat.eqb_spec (mat_rows (st_mats st0 mat_))
                         (mat_cols (st_mats st0 mat_))) as [Hsq|Hsq];
    [|discriminate Hc].
  injection Hc as <- <-. simpl in *.
  repeat split; try congruence.
  rewrite T. clear.
  induction (st_trace st0) as [|[r|] tl IH]; simpl; congruence.
Qed.

Lemma selfadjoint_times_length (mode : UpLoType) (m : SparseMatrix)
    (x : Vector) :
  wf_matrix m = true ->
  List.length (selfadjoint_times mode m x) = mat_rows m.
Proof.
  intros Hwf.
  unfold selfadjoint_times, sparse_selfadjoint_time_dense_product.
  destruct (outer_loop_spec (ProcessFirstHalf mode (IsRowMajor m)) s1 x
              (m_data m) 0 (setZero (mat_rows m))
              (wf_matrix_sorted m Hwf)) as [L _].
  rewrite L. apply repeat_length.
Qed.

(** ** Positive definite matrices *)

Lemma Q_square_nonneg (x : Q) : (0 <= x * x)%Q.
Proof. nra. Qed.

Lemma Q_square_pos (x : Q) : ~ (x == 0)%Q -> (0 < x * x)%Q.
Proof.
  intros H. destruct (Q_dec x 0) as [[H'|H']|H']; [nra|nra|contradiction].
Qed.

Lemma Q_form_2_pos (p q0 r a b : Q) :
  (0 < p)%Q -> (q0 * q0 < p * r)%Q -> ~ (a == 0)%Q \/ ~ (b == 0)%Q ->
  (0 < a * (0 + p * a + q0 * b) + (b * (0 + q0 * a + r * b) + 0))%Q.
Proof.
  intros Hp Hd Hv.
  pose proof (Q_square_nonneg (p * a + q0 * b)) as S1.
  assert (E : (p * (a * (0 + p * a + q0 * b)
                    + (b * (0 + q0 * a + r * b) + 0))
               == (p * a + q0 * b) * (p * a + q0 * b)
                  + (p * r - q0 * q0) * (b * b))%Q) by ring.
  destruct (Qeq_dec b 0) as [Hb|Hb].
  - destruct Hv as [Ha|Hb']; [|contradiction].
    apply Q_square_pos in Ha. rewrite Hb. nra.
  - apply Q_square_pos in Hb.
    assert (0 < (p * r - q0 * q0) * (b * b))%Q by nra.
    assert (0 < p * (a * (0 + p * a + q0 * b)
                     + (b * (0 + q0 * a + r * b) + 0)))%Q
      by (rewrite E; lra).
    nra.
Qed.


(* Statements on the order of [Qc], brought to [Q]. *)
Ltac qc_to_q :=
  unfold Qclt, Qcle, Qcmult, Qcplus, Qcopp, Qcminus, Q2Qc in *;
  cbn [this] in *; rewrite ?Qred_correct in *.

Lemma Qc_neq_0 (a : Scalar) : a <> s0 -> ~ (this a == 0)%Q.
Proof. intros H E. apply H. apply Qc_is_canon. exact E. Qed.

Lemma nonzero_2 (a b : Scalar) :
  [a; b] <> setZero 2 -> a <> s0 \/ b <> s0.
Proof.
  intros H. destruct (Qc_eq_dec a s0) as [Ea|Ea]; [|now left].
  destruct (Qc_eq_dec b s0) as [Eb|Eb]; [|now right].
  exfalso. apply H. now rewrite Ea, Eb.
Qed.


(** A symmetric matrix of dimension two with a positive first coefficient
    and a positive determinant is positive definite. *)
Lemma positive_definite_2 (A : nat -> nat -> Scalar) :
  A 1 0 = A 0 1 -> Qclt s0 (A 0 0) ->
  Qclt (Qcmult (A 0 1) (A 0 1)) (Qcmult (A 0 0) (A 1 1)) ->
  positive_definite 2 A.
Proof.
  intros Hs Hp Hd v L Hv.
  destruct v as [|a [|b [|c v]]]; try discriminate L.
  apply nonzero_2 in Hv.
  unfold dense_mat_vec, dot. simpl. unfold coeff. simpl. rewrite Hs.
  assert (Hv' : ~ (this a == 0)%Q \/ ~ (this b == 0)%Q)
    by (destruct Hv as [H|H]; [left|right]; now apply Qc_neq_0).
  qc_to_q. change (this (Q2Qc 0)) with 0%Q.
  now apply Q_form_2_pos.
Qed.


(** ** The second embedding at exact scalars *)

(** At the exact scalars the functions of [Generic] are the ones of the
    first embedding. *)
Lemma generic_selfadjoint_times_exact (traits : NumTraits)
    (sq : Scalar -> Scalar) (mode : UpLoType) (m : SparseMatrix)
    (x : Vector) :
  Generic.selfadjoint_times (exact_ops traits sq) mode (of_exact m) x
  = selfadjoint_times mode m x.
Proof. reflexivity. Qed.

Lemma generic_dense_mat_vec_exact (traits : NumTraits)
    (sq : Scalar -> Scalar) (n : nat) (uplo : UpLoType) (m : SparseMatrix)
    (x : Vector) :
  Generic.dense_mat_vec (exact_ops traits sq) n
    (Generic.sym_coeff (exact_ops traits sq) uplo (of_exact m)) x
  = dense_mat_vec n (sym_coeff uplo m) x.
Proof. reflexivity. Qed.

Lemma generic_factorize_exact (traits : NumTraits) (sq : Scalar -> Scalar)
    (m : SparseMatrix) :
  Generic.factorize (exact_ops traits sq) (of_exact m) = factorize m.
Proof. reflexivity. Qed.

Lemma generic_cg_loop_exact (traits : NumTraits) (sq : Scalar -> Scalar)
    (remaining : nat) (mat precond : Vector -> Vector) (threshold : Scalar)
    (i : nat) (x residual p : Vector) (absNew residualNorm2 : Scalar) :
  Generic.cg_loop (exact_ops traits sq) remaining mat precond threshold i
                  x residual p absNew residualNorm2
  = cg_loop remaining mat precond threshold i x residual p absNew
            residualNorm2.
Proof. reflexivity. Qed.

(** The solver: the same iterate and iteration count, and as error the
    square root of the squared error of the first embedding. *)
Lemma generic_conjugate_gradient_exact (traits : NumTraits)
    (sq : Scalar -> Scalar) (mat precond : Vector -> Vector)
    (rhs x : Vector) (maxIters : nat) (tol : Scalar) :
  fst (Generic.conjugate_gradient (exact_ops traits sq) mat precond rhs x
         maxIters tol)
  = fst (conjugate_gradient traits mat precond rhs x maxIters tol) /\
  snd (Generic.conjugate_gradient (exact_ops traits sq) mat precond rhs x
         maxIters tol)
  = if sc_eqb (squaredNorm rhs) s0 then s0
    else sq (snd (conjugate_gradient traits mat precond rhs x maxIters tol)).
Proof.
  unfold Generic.conjugate_gradient, conjugate_gradient.
  change (Generic.eqb (exact_ops traits sq)) with sc_eqb.
  change (Generic.squaredNorm (exact_ops traits sq)) with squaredNorm.
  change (Generic.zero (exact_ops traits sq)) with s0.
  destruct (sc_eqb (squaredNorm rhs) s0); [split; reflexivity|].
  change (Generic.ltb (exact_ops traits sq)) with sc_ltb.
  change (Generic.maxi (exact_ops traits sq)) with maxi.
  change (Generic.mul (exact_ops traits sq)) with Qcmult.
  change (Generic.considerAsZero (exact_ops traits sq))
    with (considerAsZero traits).
  change (Generic.axpy (exact_ops traits sq)) with axpy.
  change (Generic.opp (exact_ops traits sq)) with Qcopp.
  change (Generic.one (exact_ops traits sq)) with s1.
  change (Generic.dot (exact_ops traits sq)) with dot.
  change (Generic.cg_loop (exact_ops traits sq)) with cg_loop.
  cbv zeta.
  destruct (sc_ltb _ _); [split; reflexivity|].
  destruct (cg_loop _ _ _ _ _ _ _ _ _ _) as [[x' it] r'].
  split; reflexivity.
Qed.

Lemma generic_store_inside (S : Type) (ops : Generic.ScalarOps S)
    (p n k : nat) (v : list S) (mem : Ptr -> S) :
  k < n -> Generic.store ops p n v mem (p + k) = Generic.coeff ops v k.
Proof.
  intros Hk. unfold Generic.store.
  replace ((p <=? p + k) && (p + k <? p + n)) with true.
  - f_equal. lia.
  - symmetry. apply andb_true_iff. split.
    + apply Nat.leb_le. lia.
    + apply Nat.ltb_lt. lia.
Qed.

(** ** C1: the forward product *)




(** ** Evaluation on concrete inputs *)

Lemma some_vec_eq (o : option Vector) (v : Vector) :
  match o with Some u => vec_eqb u v | None => false end = true ->
  o = Some v.
Proof.
  destruct o as [u|]; [|discriminate].
  intros H. apply vec_eqb_eq in H. now subst.
Qed.

Lemma some_vec_neq (o : option Vector) (v : Vector) :
  match o with Some u => vec_eqb u v | None => false end = false ->
  o <> Some v.
Proof.
  intros H E. subst o. rewrite (proj2 (vec_eqb_eq v v) eq_refl) in H.
  discriminate H.
Qed.

Ltac eval_eq := apply some_vec_eq; vm_compute; reflexivity.
Ltac eval_neq := apply some_vec_neq; vm_compute; reflexivity.

(** With the lower triangle stored and [Uplo = Lower], the two operations
    are those of one matrix: the scenario of the specification. *)
Lemma lower_storage_scenario :
  mat_prod_on Lower double_traits B_lower [q 1; q 0] = Some [q 4; q 1] /\
  solve_on double_traits B_lower [q 4; q 1] = Some [q 1; q 0].
Proof. split; eval_eq. Qed.

(** The identity of dimension two, with either triangle flag. *)
Lemma identity_scenario (Uplo : UpLoType) :
  mat_prod_on Uplo double_traits I_2 [q 3; q 5] = Some [q 3; q 5] /\
  solve_on double_traits I_2 [q 3; q 5] = Some [q 3; q 5].
Proof. destruct Uplo; split; eval_eq. Qed.

(** The product that the solver iterates with is the one of the view
    [selfadjointView<Lower>], whatever the [Uplo] of the operator. *)
Lemma solve_result_view (traits : NumTraits) (this : SparseRegularInverse)
    (x_in : Ptr) (st : State) :
  solve_result traits this x_in st =
    fst (fst (conjugate_gradient traits
                (selfadjoint_times Lower (cg_matrix (m_cg this) st))
                (precond_solve (m_invdiag (m_cg this)))
                (load x_in (Z.to_nat (m_n this)) (st_mem st))
                (setZero (List.length
                            (load x_in (Z.to_nat (m_n this)) (st_mem st))))
                (maxIterations (m_cg this) (cg_matrix (m_cg this) st))
                (m_tolerance (m_cg this)))).
Proof.
  unfold solve_result, ConjugateGradient_solve, ConjugateGradient_UpLo.
  destruct (conjugate_gradient _ _ _ _ _ _ _) as [[x iters] err].
  reflexivity.
Qed.

(** ** C2: the operator of [solve] *)

(** C2, at the failing input.  With [Uplo = Upper] and the matrix
    [[4, 1], [1, 3]] stored by its upper triangle, [mat_prod] maps [1, 0] to
    [4, 1], the product with the full symmetric matrix, but [solve] maps
    [4, 1] to [1, 1/3] and not to [1, 0]: the solver works on the lower
    triangle and so inverts the diagonal of the matrix.  The same vectors
    with the lower triangle stored and [Uplo = Lower] give [1, 0]. *)
Theorem solve_upper_storage_other_operator :
  mat_prod_on Upper double_traits B_upper [q 1; q 0] = Some [q 4; q 1] /\
  solve_on double_traits B_upper [q 4; q 1] = Some [q 1; Q2Qc (1 # 3)] /\
  solve_on double_traits B_upper [q 4; q 1] <> Some [q 1; q 0] /\
  solve_on double_traits B_lower [q 4; q 1] = Some [q 1; q 0].
Proof.
  split; [eval_eq|]. split; [eval_eq|]. split; [eval_neq|eval_eq].
Qed.

(** ** C3: the only error is the one of construction *)

(** C3.  Construction throws [std::invalid_argument] if and only if the
    matrix is not square, and then no operator is returned; on a square
    matrix it returns an operator; no call on an operator throws. *)
Theorem construct_throws_iff_not_square (Uplo : UpLoType)
    (traits : NumTraits) (mat_ : MatRef) (st : State) :
  ((exists e, fst (construct traits mat_ st) = Throw e) <->
   mat_rows (st_mats st mat_) <> mat_cols (st_mats st mat_)) /\
  ((exists this, fst (construct traits mat_ st) = Return this) <->
   mat_rows (st_mats st mat_) = mat_cols (st_mats st mat_)) /\
  (forall (c : Call) (this : SparseRegularInverse) (st' : State),
      exists v, fst (fst (call Uplo traits c this st')) = Return v).
Proof.
  rewrite construct_spec.
  destruct (Nat.eqb_spec (mat_rows (st_mats st mat_))
                         (mat_cols (st_mats st mat_))) as [Hsq|Hsq]; simpl.
  - split; [|split].
    + split; [intros [e He]; discriminate He|intros H; contradiction].
    + split; [intros _; exact Hsq|intros _; eexists; reflexivity].
    + intros c this st'.
      destruct (call_spec Uplo traits c this st') as (v & t & s & E & _).
      exists v. now rewrite E.
  - split; [|split].
    + split; [intros _; exact Hsq|intros _; eexists; reflexivity].
    + split; [intros [t Ht]; discriminate Ht|intros H; contradiction].
    + intros c this st'.
      destruct (call_spec Uplo traits c this st') as (v & t & s & E & _).
      exists v. now rewrite E.
Qed.

(** The matrix of three rows and four columns is rejected. *)
Lemma construct_3x4 (v : Vector) :
  construct double_traits 0 (state_of M_3x4 v)
  = (Throw (invalid_argument "SparseRegularInverse: matrix must be square"),
     state_of M_3x4 v).
Proof. reflexivity. Qed.

(** ** C4: [solve] does not report the state of the iteration *)

(** C4.  [solve] returns normally and hands no status to its caller.  For
    every scalar type, operator, state and buffers the call returns.  When
    the buffers do not overlap, the iteration count, the error and the
    status [Success] or [NoConvergence] of the solver are left in the
    members of [m_cg], and the output buffer holds the iterate that the
    conjugate gradient returns, started from zero, with the iteration cap
    and the tolerance of the solver.  At [double], on the positive
    definite matrix [D_ill] and the input [1, 1], the solver stops at its
    cap of four iterations with an error above the tolerance and records
    [NoConvergence]: the call returns all the same, the output buffer
    holds the fourth iterate, an approximation of the solution
    [99990001, -9999], and the input buffer is as it was.  The first
    embedding returns normally too. *)
Theorem solve_never_signals :
  (forall (S : Type) (ops : Generic.ScalarOps S)
          (this : Generic.SparseRegularInverse S) (x_in y_out : Ptr)
          (st : Generic.State S),
     let n := Z.to_nat (Generic.m_n this) in
     let b := Generic.load x_in n (Generic.st_mem st) in
     let cg := Generic.m_cg this in
     let it :=
       Generic.conjugate_gradient ops
         (Generic.selfadjoint_times ops ConjugateGradient_UpLo
            (Generic.cg_matrix cg st))
         (Generic.precond_solve ops (Generic.m_invdiag cg))
         b (Generic.setZero ops (List.length b))
         (Generic.maxIterations cg (Generic.cg_matrix cg st))
         (Generic.m_tolerance cg) in
     let r := Generic.solve ops this x_in y_out st in
     fst (fst r) = Return tt /\
     (disjoint x_in y_out n ->
      Generic.m_iterations (Generic.m_cg (snd (fst r))) = snd (fst it) /\
      Generic.m_error (Generic.m_cg (snd (fst r))) = snd it /\
      Generic.m_info (Generic.m_cg (snd (fst r)))
        = (if Generic.leb ops (snd it) (Generic.m_tolerance cg)
           then Success else NoConvergence) /\
      forall k, k < n ->
        Generic.st_mem (snd r) (y_out + k)
        = Generic.coeff ops (fst (fst it)) k)) /\
  (exists (this : Generic.SparseRegularInverse float)
          (st : Generic.State float) (B : SparseMatrix),
     exact_matrix D_ill = Some B /\
     wf_matrix B = true /\
     positive_definite 2 (sym_coeff Lower B) /\
     Generic.construct double_ops 0
       (Generic.state_of double_ops D_ill [1; 1]%float)
       = (Return this, st) /\
     let r := Generic.solve double_ops this 0 2 st in
     fst (fst r) = Return tt /\
     Generic.m_info (Generic.m_cg (snd (fst r))) = NoConvergence /\
     Generic.m_iterations (Generic.m_cg (snd (fst r))) = 4 /\
     Generic.maxIterations (Generic.m_cg this) D_ill = 4 /\
     Generic.m_error (Generic.m_cg (snd (fst r)))
       = 0x1.6e64733a07055p-39%float /\
     PrimFloat.ltb (Generic.m_tolerance (Generic.m_cg this))
                   (Generic.m_error (Generic.m_cg (snd (fst r)))) = true /\
     Generic.load 2 2 (Generic.st_mem (snd r))
       = [0x1.7d6e7c0208c97p+26; -0x1.3877ffcd3cdb2p+13]%float /\
     Generic.load 0 2 (Generic.st_mem (snd r)) = [1; 1]%float) /\
  (forall (traits : NumTraits) (this : SparseRegularInverse)
          (x_in y_out : Ptr) (st : State),
     fst (fst (solve traits this x_in y_out st)) = Return tt).
Proof.
  split; [|split].
  - intros S ops this x_in y_out st n b cg it r.
    unfold r, Generic.solve, Generic.ConjugateGradient_solve,
      Generic.solver_run.
    fold n. fold b. fold cg. fold it.
    destruct it as [[x iters] err]. simpl.
    split; [reflexivity|]. intros _.
    split; [reflexivity|]. split; [reflexivity|]. split; [reflexivity|].
    intros k Hk. now apply generic_store_inside.
  - eexists _, _, _. split; [reflexivity|].
    split; [reflexivity|].
    split.
    { apply positive_definite_2;
        [reflexivity|vm_compute; reflexivity|vm_compute; reflexivity]. }
    split; [reflexivity|].
    cbv zeta.
    split; [vm_compute; reflexivity|].
    split; [vm_compute; reflexivity|].
    split; [vm_compute; reflexivity|].
    split; [vm_compute; reflexivity|].
    split; [vm_compute; reflexivity|].
    split; [vm_compute; reflexivity|].
    split; vm_compute; reflexivity.
  - intros traits this x_in y_out st. rewrite solve_unfold. reflexivity.
Qed.

(** ** C5: the round trip *)

(** C5, at the failing input.  With [Uplo = Upper] and the matrix
    [[4, 1], [1, 3]] stored by its upper triangle, [mat_prod] maps
    [x = [1, 0]] to [4, 1] and [solve], on that output, gives [1, 1/3]:
    the second coefficient is away from the one of [x] by more than
    [1e-6]. *)
Theorem round_trip_upper_storage :
  option_map fst (round_trip Upper double_traits B_upper [q 1; q 0])
    = Some [q 4; q 1] /\
  option_map snd (round_trip Upper double_traits B_upper [q 1; q 0])
    = Some [q 1; Q2Qc (1 # 3)] /\
  option_map snd (round_trip Upper double_traits B_upper [q 1; q 0])
    <> Some [q 1; q 0] /\
  (Q2Qc (1 # 1000000) <
     coeff [q 1; Q2Qc (1 # 3)] 1 - coeff [q 1; q 0] 1)%Qc.
Proof.
  split; [eval_eq|]. split; [eval_eq|]. split; [eval_neq|].
  vm_compute. reflexivity.
Qed.

(** The round trip on the same matrix with the lower triangle stored, and
    on the identity. *)
Lemma round_trip_lower_storage :
  option_map snd (round_trip Lower double_traits B_lower [q 1; q 0])
    = Some [q 1; q 0] /\
  option_map snd (round_trip Lower double_traits I_2 [q 3; q 5])
    = Some [q 3; q 5] /\
  option_map snd (round_trip Upper double_traits I_2 [q 3; q 5])
    = Some [q 3; q 5].
Proof. split; [eval_eq|]. split; eval_eq. Qed.

(** ** C6: the dimension *)

(** C6.  After a successful construction and any sequence of calls,
    [rows()] and [cols()] return the value cached by the constructor, the
    row count of the matrix converted to [int]; when an [int] holds the
    dimension it is the number of rows and of columns of the matrix.  Both
    calls return without changing the operator or the state. *)
Theorem rows_cols_cached (Uplo : UpLoType) (traits : NumTraits)
    (mat_ : MatRef) (st0 st1 st : State) (this0 this : SparseRegularInverse)
    (cs : list Call) :
  construct traits mat_ st0 = (Return this0, st1) ->
  run Uplo traits cs this0 st1 = (this, st) ->
  rows this = rows this0 /\
  cols this = rows this0 /\
  rows this0 = int_of_Index (mat_rows (st_mats st0 mat_)) /\
  ((Z.of_nat (mat_rows (st_mats st0 mat_)) <= INT_MAX)%Z ->
   rows this = Z.of_nat (mat_rows (st_mats st0 mat_)) /\
   cols this = Z.of_nat (mat_cols (st_mats st0 mat_))) /\
  call Uplo traits CallRows this st = (Return (VInt (rows this)), this, st) /\
  call Uplo traits CallCols this st = (Return (VInt (cols this)), this, st).
Proof.
  intros Hc Hr.
  destruct (constructed_run Uplo traits mat_ st0 st1 st this0 this cs Hc Hr)
    as (Hsq & Hn & _).
  assert (Hn0 : m_n this0 = int_of_Index (mat_rows (st_mats st0 mat_))).
  { destruct (constructed_run Uplo traits mat_ st0 st1 st1 this0 this0 []
                Hc eq_refl) as (_ & H & _). exact H. }
  unfold rows, cols.
  split; [congruence|]. split; [congruence|]. split; [exact Hn0|].
  split; [|split; reflexivity].
  intros Hfit. rewrite Hn. split.
  - now apply int_of_Index_fits.
  - rewrite <- Hsq. now apply int_of_Index_fits.
Qed.

Lemma rows_cols_cached_witness :
  rows (fst (run Lower double_traits
               [CallSolve 0 2; CallRows; CallMatProd 2 4]
               example_operator example_state)) = 2%Z /\
  cols (fst (run Lower double_traits
               [CallSolve 0 2; CallRows; CallMatProd 2 4]
               example_operator example_state)) = 2%Z.
Proof.
  destruct (rows_cols_cached Lower double_traits 0
              (state_of B_lower [q 4; q 1]) example_state _
              example_operator _
              [CallSolve 0 2; CallRows; CallMatProd 2 4]
              eq_refl (surjective_pairing _))
    as (H1 & H2 & _).
  split; [exact H1|exact H2].
Defined.

(** ** C7: determinism of [solve] *)

Lemma load_store_coeffs (p n : nat) (v : Vector) (mem : Ptr -> Scalar) :
  load p n (store p n v mem) = map (coeff v) (seq 0 n).
Proof.
  unfold load. apply map_ext_in. intros k Hk. apply in_seq in Hk.
  apply store_inside. lia.
Qed.

(** The solution depends on the operator through its set-up only, and on
    the state through the matrices and the input vector only. *)
Lemma solve_result_ext (traits : NumTraits) (a b : SparseRegularInverse)
    (x_a x_b : Ptr) (st_a st_b : State) :
  same_operator a b ->
  st_mats st_b = st_mats st_a ->
  load x_b (Z.to_nat (m_n a)) (st_mem st_b)
    = load x_a (Z.to_nat (m_n a)) (st_mem st_a) ->
  solve_result traits b x_b st_b = solve_result traits a x_a st_a.
Proof.
  intros (S1 & S2 & S3 & S4 & S5 & S6 & S7) HM HL.
  rewrite !solve_result_view. unfold cg_matrix, maxIterations.
  rewrite <- S1, <- S3, <- S4, <- S6, <- S7, HM, HL. reflexivity.
Qed.

(** C7.  Two calls of [solve] on one operator, with any calls in between,
    each with buffers that do not overlap, write the same output vector
    when the input vectors are the same. *)
Theorem solve_deterministic (Uplo : UpLoType) (traits : NumTraits)
    (this : SparseRegularInverse) (st : State) (cs : list Call)
    (x_in y_out x_in' y_out' : Ptr) :
  let n := Z.to_nat (m_n this) in
  let first := solve traits this x_in y_out st in
  let later := run Uplo traits cs (snd (fst first)) (snd first) in
  disjoint x_in y_out n ->
  disjoint x_in' y_out' n ->
  load x_in' n (st_mem (snd later)) = load x_in n (st_mem st) ->
  load y_out' n
       (st_mem (snd (solve traits (fst later) x_in' y_out' (snd later))))
  = load y_out n (st_mem (snd first)).
Proof.
  intros n first later _ _ HL.
  pose proof (solve_same_operator traits this x_in y_out st) as S.
  fold first in S.
  destruct (run_spec Uplo traits cs (snd (fst first)) (snd first))
    as (S' & M & _).
  fold later in S', M.
  pose proof (same_operator_trans _ _ _ S S') as St.
  assert (Hn : m_n (fst later) = m_n this)
    by (destruct St as (E & _); congruence).
  assert (M1 : st_mats (snd first) = st_mats st)
    by (subst first; rewrite solve_unfold; reflexivity).
  assert (R : solve_result traits (fst later) x_in' (snd later)
              = solve_result traits this x_in st).
  { apply solve_result_ext; [exact St|congruence|exact HL]. }
  rewrite (solve_unfold traits (fst later)). simpl st_mem.
  subst first. rewrite (solve_unfold traits this). simpl st_mem.
  rewrite Hn, R. fold n. now rewrite !load_store_coeffs.
Qed.

Lemma solve_deterministic_witness :
  load 4 2
       (st_mem (snd (solve double_traits
          (fst (run Lower double_traits [CallMatProd 0 6]
                    (snd (fst (solve double_traits example_operator 0 2
                                     example_state)))
                    (snd (solve double_traits example_operator 0 2
                                example_state))))
          0 4
          (snd (run Lower double_traits [CallMatProd 0 6]
                    (snd (fst (solve double_traits example_operator 0 2
                                     example_state)))
                    (snd (solve double_traits example_operator 0 2
                                example_state)))))))
  = load 2 2
         (st_mem (snd (solve double_traits example_operator 0 2
                             example_state))).
Proof.
  apply (solve_deterministic Lower double_traits example_operator
           example_state [CallMatProd 0 6] 0 2 0 4).
  - left. apply le_n.
  - left. vm_compute. lia.
  - vm_compute. reflexivity.
Defined.

(** ** C8: what the operations read *)

(** No call changes the caller's matrices. *)
Lemma run_keeps_matrices (Uplo : UpLoType) (traits : NumTraits)
    (cs : list Call) (this : SparseRegularInverse) (st : State) :
  st_mats (snd (run Uplo traits cs this st)) = st_mats st.
Proof. apply run_spec. Qed.

Lemma construct_keeps_matrices (traits : NumTraits) (mat_ : MatRef)
    (st : State) :
  st_mats (snd (construct traits mat_ st)) = st_mats st.
Proof.
  rewrite construct_spec.
  destruct (mat_rows (st_mats st mat_) =? mat_cols (st_mats st mat_));
    reflexivity.
Qed.

(** The product of [mat_prod] is a function of the triangle [Uplo]: the
    coefficients stored in the other triangle do not enter it. *)
Lemma selfadjoint_times_same_triangle (mode : UpLoType)
    (a b : SparseMatrix) (x : Vector) :
  wf_matrix a = true -> wf_matrix b = true ->
  mat_rows a = mat_cols a -> mat_rows b = mat_cols b ->
  mat_rows a = mat_rows b ->
  same_triangle mode a b ->
  selfadjoint_times mode a x = selfadjoint_times mode b x.
Proof.
  intros Wa Wb Sa Sb Hab T.
  rewrite (selfadjoint_times_dense mode a x Wa Sa).
  rewrite (selfadjoint_times_dense mode b x Wb Sb).
  rewrite <- Hab. unfold dense_mat_vec. apply map_ext. intros r.
  apply sum_n_ext. intros c _. f_equal.
  unfold sym_coeff. destruct (in_triangle mode r c) eqn:E.
  - apply T. exact E.
  - apply T. destruct mode; simpl in *;
      apply Nat.leb_le; apply Nat.leb_gt in E; lia.
Qed.

Lemma same_triangle_upper_full : same_triangle Upper B_upper B_full.
Proof.
  intros row col H. unfold mat_coeff, innerVector. simpl in *.
  destruct col as [|[|col]], row as [|[|row]];
    try reflexivity; discriminate H.
Qed.

(** C8, at the failing input.  With [Uplo = Upper], the matrices [B_upper]
    and [B_full] have the same upper triangle, and [mat_prod] computes the
    same product on both; [solve] returns [1, 1/3] on the first and [1, 0]
    on the second for the input [4, 1]: its result changes with the
    coefficient stored below the diagonal, so it reads the triangle that
    the flag does not select. *)
Theorem solve_reads_unselected_triangle :
  same_triangle Upper B_upper B_full /\
  (forall x, selfadjoint_times Upper B_upper x
             = selfadjoint_times Upper B_full x) /\
  solve_on double_traits B_upper [q 4; q 1] = Some [q 1; Q2Qc (1 # 3)] /\
  solve_on double_traits B_full [q 4; q 1] = Some [q 1; q 0] /\
  solve_on double_traits B_upper [q 4; q 1]
    <> solve_on double_traits B_full [q 4; q 1].
Proof.
  split; [exact same_triangle_upper_full|]. split.
  - intros x. apply selfadjoint_times_same_triangle;
      try reflexivity. exact same_triangle_upper_full.
  - assert (E1 : solve_on double_traits B_upper [q 4; q 1]
                 = Some [q 1; Q2Qc (1 # 3)]) by eval_eq.
    assert (E2 : solve_on double_traits B_full [q 4; q 1]
                 = Some [q 1; q 0]) by eval_eq.
    split; [exact E1|]. split; [exact E2|].
    rewrite E1, E2. intros H. injection H as H. discriminate H.
Qed.

(** ** C9: a rejected matrix never reaches the solver *)

(** C9.  When the matrix is not square the constructor throws, returns no
    operator and leaves the state as it was: no set-up of the solver is
    recorded. *)
Theorem construct_failure_before_compute (traits : NumTraits)
    (mat_ : MatRef) (st : State) :
  mat_rows (st_mats st mat_) <> mat_cols (st_mats st mat_) ->
  construct traits mat_ st
    = (Throw (invalid_argument "SparseRegularInverse: matrix must be square"),
       st) /\
  st_trace (snd (construct traits mat_ st)) = st_trace st /\
  count_compute (st_trace (snd (construct traits mat_ st)))
    = count_compute (st_trace st).
Proof.
  intros Hns. rewrite construct_spec.
  destruct (Nat.eqb_spec (mat_rows (st_mats st mat_))
                         (mat_cols (st_mats st mat_))) as [Hsq|_];
    [contradiction|].
  repeat split.
Qed.

Lemma construct_failure_before_compute_witness :
  construct double_traits 0 (state_of M_3x4 [])
    = (Throw (invalid_argument "SparseRegularInverse: matrix must be square"),
       state_of M_3x4 []) /\
  st_trace (snd (construct double_traits 0 (state_of M_3x4 []))) = [] /\
  count_compute (st_trace (snd (construct double_traits 0
                                  (state_of M_3x4 [])))) = 0.
Proof.
  apply (construct_failure_before_compute double_traits 0
           (state_of M_3x4 [])).
  vm_compute. discriminate.
Defined.

(** X10.  A successful construction sets the solver up once, as the last
    event of the trace, and no later call of [rows], [cols], [solve] or
    [mat_prod] sets it up again. *)
Lemma compute_exactly_once (Uplo : UpLoType) (traits : NumTraits)
    (mat_ : MatRef) (st0 st1 st : State) (this0 this : SparseRegularInverse)
    (cs : list Call) :
  construct traits mat_ st0 = (Return this0, st1) ->
  run Uplo traits cs this0 st1 = (this, st) ->
  st_trace st1 = st_trace st0 ++ [EvCompute mat_] /\
  count_compute (st_trace st) = S (count_compute (st_trace st0)).
Proof.
  intros Hc Hr. split.
  - rewrite construct_spec in Hc.
    destruct (mat_rows (st_mats st0 mat_) =? mat_cols (st_mats st0 mat_));
      [|discriminate Hc].
    injection Hc as _ <-. reflexivity.
  - apply (constructed_run Uplo traits mat_ st0 st1 st this0 this cs Hc Hr).
Qed.

(** ** C10: the frame of [mat_prod] and [solve] *)

(** C10.  With buffers of [n = m_n] scalars that do not overlap, [mat_prod]
    and [solve] return, write the [n] scalars of the output buffer, and
    leave every other scalar, the input buffer, the dimension returned by
    [rows()] and [cols()], the borrowed matrix and the caller's matrices
    unchanged. *)
Theorem mat_prod_solve_frame (Uplo : UpLoType) (traits : NumTraits)
    (this : SparseRegularInverse) (x_in y_out : Ptr) (st : State) :
  disjoint x_in y_out (Z.to_nat (m_n this)) ->
  call_frame (Z.to_nat (m_n this)) x_in y_out
    (selfadjoint_times Uplo (st_mats st (m_mat this))
       (load x_in (Z.to_nat (m_n this)) (st_mem st)))
    this st (mat_prod Uplo this x_in y_out st) /\
  call_frame (Z.to_nat (m_n this)) x_in y_out
    (solve_result traits this x_in st)
    this st (solve traits this x_in y_out st).
Proof.
  intros D. split.
  - unfold call_frame, mat_prod. simpl.
    split; [reflexivity|]. split; [intros k Hk; now apply store_inside|].
    split; [intros a Ha; now apply store_outside|].
    split; [now apply load_store_disjoint|]. repeat split.
  - unfold call_frame. rewrite solve_unfold. simpl.
    split; [reflexivity|]. split; [intros k Hk; now apply store_inside|].
    split; [intros a Ha; now apply store_outside|].
    split; [now apply load_store_disjoint|]. repeat split.
Qed.

Lemma mat_prod_solve_frame_witness :
  call_frame 2 0 2
    (selfadjoint_times Lower B_lower [q 4; q 1])
    example_operator example_state
    (mat_prod Lower example_operator 0 2 example_state) /\
  call_frame 2 0 2
    (solve_result double_traits example_operator 0 example_state)
    example_operator example_state
    (solve double_traits example_operator 0 2 example_state).
Proof.
  apply (mat_prod_solve_frame Lower double_traits example_operator 0 2
           example_state).
  left. vm_compute. apply le_n.
Defined.

(** ** The solver is a function of the lower triangle *)

Lemma cg_loop_ext (mat mat' precond precond' : Vector -> Vector) :
  (forall v, mat v = mat' v) -> (forall v, precond v = precond' v) ->
  forall (remaining : nat) (threshold : Scalar) (i : nat)
         (x residual p : Vector) (absNew residualNorm2 : Scalar),
    cg_loop remaining mat precond threshold i x residual p absNew
            residualNorm2
    = cg_loop remaining mat' precond' threshold i x residual p absNew
              residualNorm2.
Proof.
  intros Hm Hp. induction remaining as [|k IH]; intros; simpl.
  - reflexivity.
  - rewrite Hm. destruct (sc_ltb _ threshold); [reflexivity|].
    rewrite Hp. apply IH.
Qed.

Lemma conjugate_gradient_ext (traits : NumTraits)
    (mat mat' precond precond' : Vector -> Vector) (rhs x : Vector)
    (maxIters : nat) (tol : Scalar) :
  (forall v, mat v = mat' v) -> (forall v, precond v = precond' v) ->
  conjugate_gradient traits mat precond rhs x maxIters tol
  = conjugate_gradient traits mat' precond' rhs x maxIters tol.
Proof.
  intros Hm Hp. unfold conjugate_gradient.
  rewrite Hm, Hp, (cg_loop_ext mat mat' precond precond' Hm Hp).
  reflexivity.
Qed.

(** The preconditioner holds the inverse of the diagonal coefficient. *)
Lemma invdiag_coeff_entry_at (j : nat) (es : list Entry) :
  invdiag_coeff j es =
    if sc_eqb (entry_at j es) s0 then s1 else (s1 / entry_at j es)%Qc.
Proof.
  unfold invdiag_coeff.
  induction es as [|[k v] tl IH]; simpl; [reflexivity|].
  destruct (Nat.eqb_spec k j) as [->|Hne].
  - rewrite Nat.eqb_refl. simpl. destruct (sc_eqb v s0); reflexivity.
  - exact IH.
Qed.


Lemma mat_coeff_diag (m : SparseMatrix) (j : nat) :
  mat_coeff m j j = entry_at j (innerVector m j).
Proof. unfold mat_coeff. destruct (IsRowMajor m); reflexivity. Qed.

Lemma square_outerSize (m : SparseMatrix) :
  mat_rows m = mat_cols m -> outerSize m = mat_rows m.
Proof.
  unfold mat_rows, mat_cols. destruct (IsRowMajor m); congruence.
Qed.


(** ** The residual of the solver *)

Lemma axpy_length (a : Scalar) (v u : Vector) :
  List.length v = List.length u ->
  List.length (axpy a v u) = List.length u.
Proof.
  revert v. induction u as [|x u IH]; intros [|y v] L; simpl in *;
    try reflexivity; try discriminate L.
  f_equal. apply IH. lia.
Qed.

Lemma coeff_axpy (a : Scalar) (v u : Vector) (k : nat) :
  List.length v = List.length u ->
  coeff (axpy a v u) k = (coeff u k + a * coeff v k)%Qc.
Proof.
  unfold coeff. revert v k.
  induction u as [|x u IH]; intros [|y v] k L; simpl in *;
    try discriminate L.
  - destruct k; qring.
  - destruct k as [|k]; [reflexivity|]. apply IH. lia.
Qed.

Lemma cwiseProduct_length (u v : Vector) :
  List.length u = List.length v ->
  List.length (cwiseProduct u v) = List.length v.
Proof.
  revert v. induction u as [|x u IH]; intros [|y v] L; simpl in *;
    try reflexivity; try discriminate L.
  f_equal. apply IH. lia.
Qed.

Lemma vec_ext (u v : Vector) :
  List.length u = List.length v ->
  (forall k, k < List.length u -> coeff u k = coeff v k) -> u = v.
Proof. intros L H. apply (nth_ext _ _ s0 s0); assumption. Qed.

Lemma sum_n_scale (n : nat) (a : Scalar) (f : nat -> Scalar) :
  sum_n n (fun k => (a * f k)%Qc) = (a * sum_n n f)%Qc.
Proof.
  induction n as [|n IH]; simpl; [qring|]. rewrite IH. ring.
Qed.

Lemma dense_mat_vec_length (n : nat) (A : nat -> nat -> Scalar)
    (x : Vector) :
  List.length (dense_mat_vec n A x) = n.
Proof. unfold dense_mat_vec. now rewrite length_map, length_seq. Qed.

Lemma coeff_dense_mat_vec (n : nat) (A : nat -> nat -> Scalar) (x : Vector)
    (r : nat) :
  r < n ->
  coeff (dense_mat_vec n A x) r
  = sum_n n (fun c => (A r c * coeff x c)%Qc).
Proof.
  intros Hr. unfold coeff at 1, dense_mat_vec.
  rewrite (nth_indep _ s0 ((fun r0 => sum_n n
             (fun c => (A r0 c * coeff x c)%Qc)) 0))
    by (now rewrite length_map, length_seq).
  rewrite (map_nth (fun r0 => sum_n n (fun c => (A r0 c * coeff x c)%Qc))).
  now rewrite seq_nth.
Qed.

(** The dense product is linear. *)
Lemma dense_mat_vec_axpy (n : nat) (A : nat -> nat -> Scalar) (a : Scalar)
    (p x : Vector) :
  List.length p = List.length x ->
  dense_mat_vec n A (axpy a p x)
  = axpy a (dense_mat_vec n A p) (dense_mat_vec n A x).
Proof.
  intros L. apply vec_ext.
  - rewrite axpy_length; now rewrite !dense_mat_vec_length.
  - intros k Hk. rewrite dense_mat_vec_length in Hk.
    rewrite coeff_axpy by (now rewrite !dense_mat_vec_length).
    rewrite !coeff_dense_mat_vec by exact Hk.
    rewrite <- sum_n_scale, <- sum_n_add. apply sum_n_ext. intros c _.
    rewrite (coeff_axpy a p x c L). ring.
Qed.

(** [rhs - A (x + a p) = (rhs - A x) - a (A p)]. *)
Lemma residual_update (a : Scalar) (rhs Ax Ap : Vector) :
  List.length Ax = List.length rhs -> List.length Ap = List.length rhs ->
  axpy (- a)%Qc Ap (axpy (- s1)%Qc Ax rhs)
  = axpy (- s1)%Qc (axpy a Ap Ax) rhs.
Proof.
  intros L1 L2. apply vec_ext.
  - rewrite !axpy_length; try congruence.
    + rewrite axpy_length; congruence.
    + rewrite axpy_length; congruence.
  - intros k _.
    rewrite !coeff_axpy; try congruence.
    + ring.
    + rewrite axpy_length; congruence.
    + rewrite axpy_length; congruence.
Qed.

Section Residual.

Variable n : nat.
Variable A : nat -> nat -> Scalar.
Variable precond : Vector -> Vector.
Variable rhs : Vector.
Hypothesis precond_length :
  forall v, List.length v = n -> List.length (precond v) = n.
Hypothesis rhs_length : List.length rhs = n.

(** The loop keeps [residual = rhs - A x]: the squared norm it returns is
    the one of the true residual of the iterate it returns. *)
Lemma cg_loop_residual (remaining : nat) :
  forall (threshold : Scalar) (i : nat) (x residual p : Vector)
         (absNew residualNorm2 : Scalar),
    List.length x = n -> List.length p = n ->
    residual = axpy (- s1)%Qc (dense_mat_vec n A x) rhs ->
    residualNorm2 = squaredNorm residual ->
    List.length
      (fst (fst (cg_loop remaining (dense_mat_vec n A) precond threshold i
                         x residual p absNew residualNorm2))) = n /\
    snd (cg_loop remaining (dense_mat_vec n A) precond threshold i
                 x residual p absNew residualNorm2)
    = squaredNorm
        (axpy (- s1)%Qc
           (dense_mat_vec n A
              (fst (fst (cg_loop remaining (dense_mat_vec n A) precond
                                 threshold i x residual p absNew
                                 residualNorm2))))
           rhs).
Proof.
  induction remaining as [|k IH];
    intros threshold i x residual p absNew residualNorm2 Lx Lp Hres Hr2.
  - simpl. split; [exact Lx|]. now rewrite Hr2, Hres.
  - simpl.
    set (alpha := (absNew / dot p (dense_mat_vec n A p))%Qc).
    assert (Lx' : List.length (axpy alpha p x) = n)
      by (rewrite axpy_length; congruence).
    assert (Hres' : axpy (- alpha)%Qc (dense_mat_vec n A p) residual
                    = axpy (- s1)%Qc
                        (dense_mat_vec n A (axpy alpha p x)) rhs).
    { rewrite Hres, dense_mat_vec_axpy by congruence.
      apply residual_update; now rewrite dense_mat_vec_length. }
    destruct (sc_ltb _ threshold).
    + simpl. split; [exact Lx'|]. now rewrite Hres'.
    + apply IH; try assumption; try reflexivity.
      assert (Lr : List.length
                     (axpy (- alpha)%Qc (dense_mat_vec n A p) residual) = n).
      { rewrite Hres'. rewrite axpy_length;
          now rewrite ?dense_mat_vec_length. }
      rewrite axpy_length; rewrite precond_length; congruence.
Qed.

(** The relative residual that [conjugate_gradient] returns is the one of
    the iterate it returns. *)
Lemma conjugate_gradient_residual (traits : NumTraits) (maxIters : nat)
    (tol : Scalar) :
  squaredNorm
    (axpy (- s1)%Qc
       (dense_mat_vec n A
          (fst (fst (conjugate_gradient traits (dense_mat_vec n A) precond
                       rhs (setZero n) maxIters tol))))
       rhs)
  = (snd (conjugate_gradient traits (dense_mat_vec n A) precond
            rhs (setZero n) maxIters tol)
     * squaredNorm rhs)%Qc.
Proof.
  unfold conjugate_gradient.
  assert (Lz : List.length (setZero n) = n) by apply repeat_length.
  destruct (sc_eqb (squaredNorm rhs) s0) eqn:E0.
  - simpl. apply sc_eqb_eq in E0. rewrite Lz, E0.
    assert (Z : axpy (- s1)%Qc (dense_mat_vec n A (setZero n)) rhs = rhs).
    { apply vec_ext.
      - rewrite axpy_length; now rewrite ?dense_mat_vec_length.
      - intros k Hk.
        rewrite axpy_length in Hk by (now rewrite dense_mat_vec_length).
        rewrite coeff_axpy by (now rewrite dense_mat_vec_length).
        rewrite coeff_dense_mat_vec by congruence.
        rewrite sum_n_zero; [ring|].
        intros c _. rewrite coeff_setZero. ring. }
    rewrite Z, E0. ring.
  - assert (N0 : squaredNorm rhs <> s0).
    { intros H. apply sc_eqb_eq in H. congruence. }
    destruct (sc_ltb _ _).
    + simpl. field. exact N0.
    + set (residual := axpy (- s1)%Qc (dense_mat_vec n A (setZero n)) rhs).
      assert (Lr : List.length residual = n).
      { unfold residual. rewrite axpy_length;
          now rewrite ?dense_mat_vec_length. }
      destruct (cg_loop_residual maxIters
                  (maxi (tol * tol * squaredNorm rhs)
                        (considerAsZero traits))
                  0 (setZero n) residual (precond residual)
                  (dot residual (precond residual))
                  (squaredNorm residual)
                  Lz (precond_length residual Lr) eq_refl eq_refl)
        as [_ H].
      destruct (cg_loop _ _ _ _ _ _ _ _ _ _) as [[x' iters] r2'].
      simpl in *. rewrite <- H. field. exact N0.
Qed.

Lemma conjugate_gradient_length (traits : NumTraits) (maxIters : nat)
    (tol : Scalar) :
  List.length
    (fst (fst (conjugate_gradient traits (dense_mat_vec n A) precond
                 rhs (setZero n) maxIters tol))) = n.
Proof.
  unfold conjugate_gradient.
  assert (Lz : List.length (setZero n) = n) by apply repeat_length.
  destruct (sc_eqb (squaredNorm rhs) s0).
  - simpl. rewrite Lz. apply repeat_length.
  - destruct (sc_ltb _ _); [exact Lz|].
    set (residual := axpy (- s1)%Qc (dense_mat_vec n A (setZero n)) rhs).
    assert (Lr : List.length residual = n).
    { unfold residual. rewrite axpy_length;
        now rewrite ?dense_mat_vec_length. }
    destruct (cg_loop_residual maxIters
                (maxi (tol * tol * squaredNorm rhs)
                      (considerAsZero traits))
                0 (setZero n) residual (precond residual)
                (dot residual (precond residual))
                (squaredNorm residual)
                Lz (precond_length residual Lr) eq_refl eq_refl)
      as [H _].
    destruct (cg_loop _ _ _ _ _ _ _ _ _ _) as [[x' iters] r2'].
    exact H.
Qed.

End Residual.

Lemma Qc_square_nonneg (a : Scalar) : (s0 <= a * a)%Qc.
Proof.
  unfold Qcle, Qcmult, Q2Qc. cbn [this].
  rewrite !Qred_correct.
  destruct a as [[p d] H]. unfold Qle. cbn.
  rewrite Z.mul_1_r. apply Z.square_nonneg.
Qed.

Lemma squaredNorm_nonneg (v : Vector) : (s0 <= squaredNorm v)%Qc.
Proof.
  unfold squaredNorm. induction v as [|a v IH]; simpl.
  - apply Qcle_refl.
  - replace s0 with (s0 + s0)%Qc by ring.
    apply Qcplus_le_compat; [apply Qc_square_nonneg|exact IH].
Qed.

Lemma factorize_from_length (outers : list (list Entry)) :
  forall j, List.length (factorize_from j outers) = List.length outers.
Proof.
  induction outers as [|es tl IH]; intros j; simpl; [reflexivity|].
  now rewrite IH.
Qed.

(** What [solve] solves.  For an operator constructed with any [Uplo] on a
    well-formed square matrix [B], the squared residual of the vector that
    the solver returns, measured with the full symmetric matrix that
    mirrors the LOWER triangle of [B], is the relative error that the
    solver records times the squared norm of the input; when the solver
    records [Success] it is at most [epsilon^2] times that norm. *)
Lemma solve_residual_lower_mirror (Uplo : UpLoType) (traits : NumTraits)
    (mat_ : MatRef) (st0 st1 st : State) (this0 this : SparseRegularInverse)
    (cs : list Call) (x_in : Ptr) :
  wf_matrix (st_mats st0 mat_) = true ->
  (Z.of_nat (mat_rows (st_mats st0 mat_)) <= INT_MAX)%Z ->
  construct traits mat_ st0 = (Return this0, st1) ->
  run Uplo traits cs this0 st1 = (this, st) ->
  let n := mat_rows (st_mats st0 mat_) in
  let b := load x_in n (st_mem st) in
  let r := ConjugateGradient_solve traits (m_cg this) b st in
  let residual :=
    axpy (- s1)%Qc
         (dense_mat_vec n (sym_coeff Lower (st_mats st0 mat_))
                        (fst (fst r))) b in
  fst (fst r) = solve_result traits this x_in st /\
  squaredNorm residual = (m_error_sq (snd (fst r)) * squaredNorm b)%Qc /\
  (m_info (snd (fst r)) = Success ->
   (squaredNorm residual
    <= epsilon traits * epsilon traits * squaredNorm b)%Qc).
Proof.
  intros Hwf Hfit Hc Hr n b r residual.
  destruct (constructed_run Uplo traits mat_ st0 st1 st this0 this cs Hc Hr)
    as (Hsq & Hn & Hm & Hp & Hd & _ & Hmax & Htol & HM & _).
  assert (Hnn : Z.to_nat (m_n this) = n)
    by (rewrite Hn, (int_of_Index_fits _ Hfit); apply Nat2Z.id).
  assert (Lb : List.length b = n) by apply load_length.
  assert (Hpre : forall v, List.length v = n ->
                 List.length (precond_solve (m_invdiag (m_cg this)) v) = n).
  { intros v Lv. unfold precond_solve.
    rewrite cwiseProduct_length; [exact Lv|].
    rewrite Hd, Lv. unfold factorize. rewrite factorize_from_length.
    apply (square_outerSize _ Hsq). }
  assert (E : r =
    (let '(x, iters, err) :=
       conjugate_gradient traits
         (dense_mat_vec n (sym_coeff Lower (st_mats st0 mat_)))
         (precond_solve (m_invdiag (m_cg this)))
         b (setZero n)
         (maxIterations (m_cg this) (st_mats st0 mat_))
         (m_tolerance (m_cg this)) in
     (x,
      {| mp_matrix := mp_matrix (m_cg this);
         m_invdiag := m_invdiag (m_cg this);
         m_isInitialized := m_isInitialized (m_cg this);
         m_maxIterations := m_maxIterations (m_cg this);
         m_tolerance := m_tolerance (m_cg this);
         m_error_sq := err;
         m_iterations := iters;
         m_info := if sc_leb err (m_tolerance (m_cg this)
                                  * m_tolerance (m_cg this))%Qc
                   then Success else NoConvergence |},
      {| st_mats := st_mats st; st_mem := st_mem st;
         st_trace := st_trace st ++ [EvSolve] |}))).
  { unfold r, ConjugateGradient_solve, ConjugateGradient_UpLo, cg_matrix.
    rewrite Hp, HM, Lb.
    rewrite (conjugate_gradient_ext traits
               (selfadjoint_times Lower (st_mats st0 mat_))
               (dense_mat_vec n (sym_coeff Lower (st_mats st0 mat_)))
               (precond_solve (m_invdiag (m_cg this)))
               (precond_solve (m_invdiag (m_cg this))));
      [reflexivity| |reflexivity].
    intros v. now apply selfadjoint_times_dense. }
  pose proof (conjugate_gradient_residual n
                (sym_coeff Lower (st_mats st0 mat_))
                (precond_solve (m_invdiag (m_cg this))) b Hpre Lb traits
                (maxIterations (m_cg this) (st_mats st0 mat_))
                (m_tolerance (m_cg this))) as R.
  split.
  - unfold solve_result. rewrite Hnn. reflexivity.
  - unfold residual. rewrite E.
    destruct (conjugate_gradient _ _ _ _ _ _ _) as [[x iters] err].
    simpl in *. split; [exact R|].
    destruct (sc_leb err _) eqn:El; [|discriminate].
    intros _. rewrite R, <- Htol.
    apply Qcmult_le_compat_r; [|apply squaredNorm_nonneg].
    unfold sc_leb in El. apply Qle_bool_iff in El. exact El.
Qed.

(** The solution has the dimension of the matrix. *)
Lemma solve_result_length (Uplo : UpLoType) (traits : NumTraits)
    (mat_ : MatRef) (st0 st1 st : State) (this0 this : SparseRegularInverse)
    (cs : list Call) (x_in : Ptr) :
  wf_matrix (st_mats st0 mat_) = true ->
  (Z.of_nat (mat_rows (st_mats st0 mat_)) <= INT_MAX)%Z ->
  construct traits mat_ st0 = (Return this0, st1) ->
  run Uplo traits cs this0 st1 = (this, st) ->
  List.length (solve_result traits this x_in st)
  = mat_rows (st_mats st0 mat_).
Proof.
  intros Hwf Hfit Hc Hr.
  destruct (constructed_run Uplo traits mat_ st0 st1 st this0 this cs Hc Hr)
    as (Hsq & Hn & Hm & Hp & Hd & _ & Hmax & Htol & HM & _).
  set (n := mat_rows (st_mats st0 mat_)).
  assert (Hnn : Z.to_nat (m_n this) = n)
    by (rewrite Hn, (int_of_Index_fits _ Hfit); apply Nat2Z.id).
  unfold solve_result. rewrite Hnn.
  set (b := load x_in n (st_mem st)).
  assert (Lb : List.length b = n) by apply load_length.
  assert (Hpre : forall v, List.length v = n ->
                 List.length (precond_solve (m_invdiag (m_cg this)) v) = n).
  { intros v Lv. unfold precond_solve.
    rewrite cwiseProduct_length; [exact Lv|].
    rewrite Hd, Lv. unfold factorize. rewrite factorize_from_length.
    apply (square_outerSize _ Hsq). }
  unfold ConjugateGradient_solve, ConjugateGradient_UpLo, cg_matrix.
  rewrite Hp, HM, Lb.
  rewrite (conjugate_gradient_ext traits
             (selfadjoint_times Lower (st_mats st0 mat_))
             (dense_mat_vec n (sym_coeff Lower (st_mats st0 mat_)))
             (precond_solve (m_invdiag (m_cg this)))
             (precond_solve (m_invdiag (m_cg this))));
    [| |reflexivity].
  - pose proof (conjugate_gradient_length n
                  (sym_coeff Lower (st_mats st0 mat_))
                  (precond_solve (m_invdiag (m_cg this))) b Hpre Lb traits
                  (maxIterations (m_cg this) (st_mats st0 mat_))
                  (m_tolerance (m_cg this))) as L.
    destruct (conjugate_gradient _ _ _ _ _ _ _) as [[x iters] err].
    exact L.
  - intros v. now apply selfadjoint_times_dense.
Qed.

(** * Further properties of the operator *)

(** ** The forward product as a linear map *)

Lemma load_coeff (n : nat) (x : Vector) :
  List.length x = n -> load 0 n (coeff x) = x.
Proof.
  intros L. apply vec_ext.
  - now rewrite load_length.
  - intros k Hk. rewrite load_length in Hk. now rewrite coeff_load.
Qed.

(** [mat_prod] on an operator constructed for the vector [x]. *)
Lemma mat_prod_on_dense (Uplo : UpLoType) (traits : NumTraits)
    (m : SparseMatrix) (x : Vector) :
  wf_matrix m = true -> mat_rows m = mat_cols m ->
  (Z.of_nat (mat_rows m) <= INT_MAX)%Z ->
  List.length x = mat_rows m ->
  mat_prod_on Uplo traits m x
  = Some (dense_mat_vec (mat_rows m) (sym_coeff Uplo m) x).
Proof.
  intros Hwf Hsq Hfit Lx. unfold mat_prod_on.
  rewrite construct_spec. simpl st_mats. rewrite <- Hsq, Nat.eqb_refl.
  f_equal. unfold mat_prod. simpl.
  rewrite (int_of_Index_fits _ Hfit), Nat2Z.id, Lx.
  rewrite (load_coeff (mat_rows m) x Lx).
  rewrite load_store_same by (now apply selfadjoint_times_length).
  now apply selfadjoint_times_dense.
Qed.

Lemma sym_coeff_sym (uplo : UpLoType) (m : SparseMatrix) (r c : nat) :
  sym_coeff uplo m r c = sym_coeff uplo m c r.
Proof.
  unfold sym_coeff, in_triangle.
  destruct uplo; destruct (Nat.leb_spec c r), (Nat.leb_spec r c);
    try reflexivity; try lia;
    replace c with r by lia; reflexivity.
Qed.

Lemma dot_sum_n (u v : Vector) :
  List.length u = List.length v ->
  dot u v = sum_n (List.length u) (fun k => (coeff u k * coeff v k)%Qc).
Proof.
  revert v. induction u as [|a u IH]; intros [|b v] L;
    try discriminate L; [reflexivity|].
  cbn [dot List.length]. rewrite sum_n_shift.
  rewrite (IH v) by (simpl in L; lia). reflexivity.
Qed.

Lemma sum_n_exchange (n m : nat) (F : nat -> nat -> Scalar) :
  sum_n n (fun r => sum_n m (fun c => F r c))
  = sum_n m (fun c => sum_n n (fun r => F r c)).
Proof.
  induction n as [|n IH]; simpl.
  - symmetry. apply sum_n_zero. reflexivity.
  - rewrite IH, <- sum_n_add. reflexivity.
Qed.

(** X1.  With exact scalars and buffers that do not overlap, [mat_prod] is
    a function of the triangle [Uplo] of the matrix: two operators
    constructed on well-formed square matrices whose coefficients agree on
    that triangle, whatever the other triangle holds and whatever the
    storage order of each, write the same output for the same input. *)
Theorem mat_prod_same_triangle (Uplo : UpLoType) (traits : NumTraits)
    (ref_a ref_b : MatRef) (sa0 sa sb0 sb : State)
    (op_a op_b : SparseRegularInverse) (x_a y_a x_b y_b : Ptr) :
  wf_matrix (st_mats sa0 ref_a) = true ->
  wf_matrix (st_mats sb0 ref_b) = true ->
  mat_rows (st_mats sa0 ref_a) = mat_rows (st_mats sb0 ref_b) ->
  same_triangle Uplo (st_mats sa0 ref_a) (st_mats sb0 ref_b) ->
  construct traits ref_a sa0 = (Return op_a, sa) ->
  construct traits ref_b sb0 = (Return op_b, sb) ->
  disjoint x_a y_a (Z.to_nat (m_n op_a)) ->
  disjoint x_b y_b (Z.to_nat (m_n op_a)) ->
  load x_b (Z.to_nat (m_n op_a)) (st_mem sb)
    = load x_a (Z.to_nat (m_n op_a)) (st_mem sa) ->
  load y_b (Z.to_nat (m_n op_a))
       (st_mem (snd (mat_prod Uplo op_b x_b y_b sb)))
  = load y_a (Z.to_nat (m_n op_a))
         (st_mem (snd (mat_prod Uplo op_a x_a y_a sa))).
Proof.
  intros Wa Wb Hab T Ca Cb _ _ HL.
  destruct (constructed_run Uplo traits ref_a sa0 sa sa op_a op_a [] Ca
              eq_refl) as (Sa & Na & Ma & _ & _ & _ & _ & _ & MMa & _).
  destruct (constructed_run Uplo traits ref_b sb0 sb sb op_b op_b [] Cb
              eq_refl) as (Sb & Nb & Mb & _ & _ & _ & _ & _ & MMb & _).
  assert (Hn : m_n op_b = m_n op_a) by congruence.
  unfold mat_prod. simpl. rewrite Hn, !load_store_coeffs.
  rewrite HL, Ma, Mb, MMa, MMb.
  rewrite (selfadjoint_times_same_triangle Uplo (st_mats sa0 ref_a)
             (st_mats sb0 ref_b) _ Wa Wb Sa Sb Hab T).
  reflexivity.
Qed.

Lemma mat_prod_same_triangle_witness :
  load 2 2 (st_mem (snd (mat_prod Upper
              {| m_n := 2; m_mat := 0;
                 m_cg := fst (ConjugateGradient_compute
                                (ConjugateGradient_init double_traits) 0
                                (state_of B_full [q 4; q 1])) |}
              0 2
              (snd (construct double_traits 0
                      (state_of B_full [q 4; q 1]))))))
  = load 2 2 (st_mem (snd (mat_prod Upper
                {| m_n := 2; m_mat := 0;
                   m_cg := fst (ConjugateGradient_compute
                                  (ConjugateGradient_init double_traits) 0
                                  (state_of B_upper [q 4; q 1])) |}
                0 2
                (snd (construct double_traits 0
                        (state_of B_upper [q 4; q 1])))))).
Proof.
  apply (mat_prod_same_triangle Upper double_traits 0 0
           (state_of B_upper [q 4; q 1]) _
           (state_of B_full [q 4; q 1]) _ _ _ 0 2 0 2
           eq_refl eq_refl eq_refl same_triangle_upper_full
           eq_refl eq_refl (or_introl (le_n 2)) (or_introl (le_n 2))
           eq_refl).
Defined.

(** X2.  [mat_prod] is linear: on a well-formed square matrix, the product
    of [x + a p] is the product of [x] plus [a] times the product of
    [p]. *)
Theorem mat_prod_linear (Uplo : UpLoType) (traits : NumTraits)
    (m : SparseMatrix) (a : Scalar) (p x : Vector) :
  wf_matrix m = true -> mat_rows m = mat_cols m ->
  (Z.of_nat (mat_rows m) <= INT_MAX)%Z ->
  List.length x = mat_rows m -> List.length p = mat_rows m ->
  exists Bx Bp,
    mat_prod_on Uplo traits m x = Some Bx /\
    mat_prod_on Uplo traits m p = Some Bp /\
    mat_prod_on Uplo traits m (axpy a p x) = Some (axpy a Bp Bx).
Proof.
  intros Hwf Hsq Hfit Lx Lp.
  exists (dense_mat_vec (mat_rows m) (sym_coeff Uplo m) x),
         (dense_mat_vec (mat_rows m) (sym_coeff Uplo m) p).
  rewrite !mat_prod_on_dense; try assumption.
  - repeat split. f_equal. apply dense_mat_vec_axpy. congruence.
  - rewrite axpy_length; congruence.
Qed.

Lemma mat_prod_linear_witness :
  exists Bx Bp,
    mat_prod_on Lower double_traits B_lower [q 1; q 0] = Some Bx /\
    mat_prod_on Lower double_traits B_lower [q 3; q 5] = Some Bp /\
    mat_prod_on Lower double_traits B_lower
                (axpy (q 2) [q 3; q 5] [q 1; q 0])
    = Some (axpy (q 2) Bp Bx).
Proof.
  apply (mat_prod_linear Lower double_traits B_lower (q 2)
           [q 3; q 5] [q 1; q 0]);
    try reflexivity.
  apply Z.leb_le. reflexivity.
Defined.

(** X3.  With exact scalars [mat_prod] is self-adjoint: on a well-formed
    square matrix, with either triangle flag and whatever the other
    triangle holds, the scalar product of [y] with the product of [x] is
    the scalar product of [x] with the product of [y]. *)
Theorem mat_prod_self_adjoint (Uplo : UpLoType) (traits : NumTraits)
    (m : SparseMatrix) (x y : Vector) :
  wf_matrix m = true -> mat_rows m = mat_cols m ->
  (Z.of_nat (mat_rows m) <= INT_MAX)%Z ->
  List.length x = mat_rows m -> List.length y = mat_rows m ->
  exists Bx By,
    mat_prod_on Uplo traits m x = Some Bx /\
    mat_prod_on Uplo traits m y = Some By /\
    dot y Bx = dot x By.
Proof.
  intros Hwf Hsq Hfit Lx Ly.
  exists (dense_mat_vec (mat_rows m) (sym_coeff Uplo m) x),
         (dense_mat_vec (mat_rows m) (sym_coeff Uplo m) y).
  rewrite !mat_prod_on_dense by assumption.
  split; [reflexivity|]. split; [reflexivity|].
  rewrite !dot_sum_n by (now rewrite dense_mat_vec_length).
  rewrite Lx, Ly.
  transitivity
    (sum_n (mat_rows m) (fun r => sum_n (mat_rows m) (fun c =>
       (coeff y r * (sym_coeff Uplo m r c * coeff x c))%Qc))).
  - apply sum_n_ext. intros r Hr.
    rewrite coeff_dense_mat_vec by exact Hr.
    now rewrite <- sum_n_scale.
  - rewrite sum_n_exchange. apply sum_n_ext. intros c Hc.
    rewrite coeff_dense_mat_vec by exact Hc.
    rewrite <- sum_n_scale. apply sum_n_ext. intros r _.
    rewrite (sym_coeff_sym Uplo m r c). ring.
Qed.

Lemma mat_prod_self_adjoint_witness :
  exists Bx By,
    mat_prod_on Upper double_traits B_full [q 1; q 0] = Some Bx /\
    mat_prod_on Upper double_traits B_full [q 3; q 5] = Some By /\
    dot [q 3; q 5] Bx = dot [q 1; q 0] By.
Proof.
  apply (mat_prod_self_adjoint Upper double_traits B_full
           [q 1; q 0] [q 3; q 5]);
    try reflexivity.
  apply Z.leb_le. reflexivity.
Defined.

(** X4.  With exact scalars, when both triangles are stored and mirror each
    other, the product does not depend on the triangle flag: [mat_prod]
    with [Uplo = Upper] and with [Uplo = Lower] give the same vector, the
    ordinary product with the stored matrix. *)
Theorem mat_prod_symmetric_storage (traits : NumTraits) (m : SparseMatrix)
    (x : Vector) :
  wf_matrix m = true -> mat_rows m = mat_cols m ->
  (Z.of_nat (mat_rows m) <= INT_MAX)%Z ->
  List.length x = mat_rows m ->
  symmetric_storage m ->
  mat_prod_on Upper traits m x = mat_prod_on Lower traits m x /\
  mat_prod_on Lower traits m x
  = Some (dense_mat_vec (mat_rows m) (mat_coeff m) x).
Proof.
  intros Hwf Hsq Hfit Lx Hsym.
  rewrite !mat_prod_on_dense by assumption.
  assert (E : forall uplo,
             dense_mat_vec (mat_rows m) (sym_coeff uplo m) x
             = dense_mat_vec (mat_rows m) (mat_coeff m) x).
  { intros uplo. unfold dense_mat_vec. apply map_ext. intros r.
    apply sum_n_ext. intros c _. f_equal. unfold sym_coeff.
    destruct (in_triangle uplo r c); [reflexivity|apply Hsym]. }
  now rewrite !E.
Qed.

Lemma symmetric_storage_B_full : symmetric_storage B_full.
Proof.
  intros row col. unfold mat_coeff, innerVector. simpl.
  destruct row as [|[|[|row]]], col as [|[|[|col]]]; reflexivity.
Qed.

Lemma mat_prod_symmetric_storage_witness :
  mat_prod_on Upper double_traits B_full [q 1; q 0]
    = mat_prod_on Lower double_traits B_full [q 1; q 0] /\
  mat_prod_on Lower double_traits B_full [q 1; q 0]
    = Some (dense_mat_vec 2 (mat_coeff B_full) [q 1; q 0]).
Proof.
  apply (mat_prod_symmetric_storage double_traits B_full [q 1; q 0]);
    try reflexivity.
  - apply Z.leb_le. reflexivity.
  - exact symmetric_storage_B_full.
Defined.

(** ** What [solve] depends on *)



Lemma compute_exactly_once_witness :
  st_trace example_state = [EvCompute 0] /\
  count_compute
    (st_trace (snd (run Lower double_traits
                      [CallSolve 0 2; CallMatProd 2 4; CallSolve 4 6]
                      example_operator example_state))) = 1.
Proof.
  exact (compute_exactly_once Lower double_traits 0
           (state_of B_lower [q 4; q 1]) example_state _
           example_operator _
           [CallSolve 0 2; CallMatProd 2 4; CallSolve 4 6]
           eq_refl (surjective_pairing _)).
Defined.

Lemma run_app (Uplo : UpLoType) (traits : NumTraits) (cs1 cs2 : list Call) :
  forall (this : SparseRegularInverse) (st : State),
    run Uplo traits (cs1 ++ cs2) this st
    = run Uplo traits cs2 (fst (run Uplo traits cs1 this st))
          (snd (run Uplo traits cs1 this st)).
Proof.
  induction cs1 as [|c tl IH]; intros this st; simpl; [reflexivity|].
  destruct (call Uplo traits c this st) as [[o this'] st']. apply IH.
Qed.

Lemma sym_coeff_symmetric_storage (uplo : UpLoType) (m : SparseMatrix) :
  symmetric_storage m ->
  forall r c, sym_coeff uplo m r c = mat_coeff m r c.
Proof.
  intros Hsym r c. unfold sym_coeff.
  destruct (in_triangle uplo r c); [reflexivity|apply Hsym].
Qed.

Lemma dense_mat_vec_ext (n : nat) (A B : nat -> nat -> Scalar) (x : Vector) :
  (forall r c, A r c = B r c) ->
  dense_mat_vec n A x = dense_mat_vec n B x.
Proof.
  intros H. unfold dense_mat_vec. apply map_ext. intros r.
  apply sum_n_ext. intros c _. now rewrite H.
Qed.

(** The matrix of [mat_prod] is the one of the solver when the flag is
    [Lower] or when the storage is symmetric. *)
Lemma sym_coeff_solver (Uplo : UpLoType) (m : SparseMatrix) :
  Uplo = Lower \/ symmetric_storage m ->
  forall r c, sym_coeff Lower m r c = sym_coeff Uplo m r c.
Proof.
  intros [->|Hsym] r c; [reflexivity|].
  now rewrite !(sym_coeff_symmetric_storage _ m Hsym).
Qed.

(** ** [solve] against the matrix of [mat_prod] *)

(** X6.  With exact scalars and buffers that do not overlap: when
    [Uplo = Lower], or when both triangles are stored and mirror each
    other, [solve] and [mat_prod] work on one matrix.  For an operator
    constructed on a well-formed square matrix, the squared residual of
    the vector that [solve] writes, measured with the matrix of
    [mat_prod], is the relative error recorded by the solver times the
    squared norm of the input, and it is at most [epsilon^2] times that
    norm when the solver recorded [Success]. *)
Theorem solve_residual_mat_prod_matrix (Uplo : UpLoType)
    (traits : NumTraits) (mat_ : MatRef) (st0 st1 st : State)
    (this0 this : SparseRegularInverse) (cs : list Call)
    (x_in y_out : Ptr) :
  wf_matrix (st_mats st0 mat_) = true ->
  (Z.of_nat (mat_rows (st_mats st0 mat_)) <= INT_MAX)%Z ->
  Uplo = Lower \/ symmetric_storage (st_mats st0 mat_) ->
  construct traits mat_ st0 = (Return this0, st1) ->
  run Uplo traits cs this0 st1 = (this, st) ->
  disjoint x_in y_out (mat_rows (st_mats st0 mat_)) ->
  let n := mat_rows (st_mats st0 mat_) in
  let b := load x_in n (st_mem st) in
  let this' := snd (fst (solve traits this x_in y_out st)) in
  let y := load y_out n (st_mem (snd (solve traits this x_in y_out st))) in
  let residual :=
    axpy (- s1)%Qc
         (dense_mat_vec n (sym_coeff Uplo (st_mats st0 mat_)) y) b in
  squaredNorm residual = (m_error_sq (m_cg this') * squaredNorm b)%Qc /\
  (m_info (m_cg this') = Success ->
   (squaredNorm residual
    <= epsilon traits * epsilon traits * squaredNorm b)%Qc).
Proof.
  intros Hwf Hfit Hflag Hc Hr _ n b this' y residual.
  destruct (solve_residual_lower_mirror Uplo traits mat_ st0 st1 st
              this0 this cs x_in Hwf Hfit Hc Hr) as (Ey & Eres & Hok).
  assert (Hy : y = solve_result traits this x_in st).
  { unfold y. rewrite solve_unfold. simpl st_mem.
    replace (Z.to_nat (m_n this)) with n.
    - apply load_store_same.
      apply (solve_result_length Uplo traits mat_ st0 st1 st this0 this cs
               x_in Hwf Hfit Hc Hr).
    - destruct (constructed_run Uplo traits mat_ st0 st1 st this0 this cs
                  Hc Hr) as (_ & Hn & _).
      rewrite Hn, (int_of_Index_fits _ Hfit). symmetry. apply Nat2Z.id. }
  unfold residual. rewrite Hy. clear Hy.
  destruct (constructed_run Uplo traits mat_ st0 st1 st this0 this cs Hc Hr)
    as (_ & Hn & _).
  assert (Hnn : Z.to_nat (m_n this) = mat_rows (st_mats st0 mat_))
    by (rewrite Hn, (int_of_Index_fits _ Hfit); apply Nat2Z.id).
  assert (Ecg : m_cg this'
                = snd (fst (ConjugateGradient_solve traits (m_cg this)
                              b st))).
  { unfold this'. rewrite solve_unfold. simpl. unfold b, n.
    now rewrite Hnn. }
  unfold residual.
  rewrite <- (dense_mat_vec_ext n _ _ _
                (sym_coeff_solver Uplo (st_mats st0 mat_) Hflag)).
  rewrite Ecg, <- Ey. split; [exact Eres|exact Hok].
Qed.

Lemma solve_residual_mat_prod_matrix_witness :
  let b := load 0 2 (st_mem example_state) in
  let this' :=
    snd (fst (solve double_traits example_operator 0 2 example_state)) in
  let y :=
    load 2 2
         (st_mem (snd (solve double_traits example_operator 0 2
                             example_state))) in
  let residual :=
    axpy (- s1)%Qc (dense_mat_vec 2 (sym_coeff Lower B_lower) y) b in
  squaredNorm residual = (m_error_sq (m_cg this') * squaredNorm b)%Qc /\
  (m_info (m_cg this') = Success ->
   (squaredNorm residual
    <= epsilon double_traits * epsilon double_traits * squaredNorm b)%Qc).
Proof.
  apply (solve_residual_mat_prod_matrix Lower double_traits 0
           (state_of B_lower [q 4; q 1]) example_state example_state
           example_operator example_operator [] 0 2);
    try reflexivity.
  - apply Z.leb_le. reflexivity.
  - left. reflexivity.
  - left. apply le_n.
Defined.

(** X7.  The round trip with exact scalars and buffers that do not
    overlap, when [Uplo = Lower] or the storage is symmetric: [mat_prod]
    writes [B x], and when [solve], called on that output, records
    [Success], the vector [y] it writes satisfies
    [|B x - B y|^2 <= epsilon^2 |B x|^2], [B] being the matrix of
    [mat_prod]. *)
Theorem round_trip_residual (Uplo : UpLoType) (traits : NumTraits)
    (mat_ : MatRef) (st0 st1 st : State)
    (this0 this : SparseRegularInverse) (cs : list Call)
    (x_in b_out y_out : Ptr) :
  wf_matrix (st_mats st0 mat_) = true ->
  (Z.of_nat (mat_rows (st_mats st0 mat_)) <= INT_MAX)%Z ->
  Uplo = Lower \/ symmetric_storage (st_mats st0 mat_) ->
  construct traits mat_ st0 = (Return this0, st1) ->
  run Uplo traits cs this0 st1 = (this, st) ->
  disjoint x_in b_out (mat_rows (st_mats st0 mat_)) ->
  disjoint b_out y_out (mat_rows (st_mats st0 mat_)) ->
  let n := mat_rows (st_mats st0 mat_) in
  let B := dense_mat_vec n (sym_coeff Uplo (st_mats st0 mat_)) in
  let x := load x_in n (st_mem st) in
  let after_prod := mat_prod Uplo this x_in b_out st in
  let after_solve :=
    solve traits (snd (fst after_prod)) b_out y_out (snd after_prod) in
  let y := solve_result traits (snd (fst after_prod)) b_out
                        (snd after_prod) in
  load b_out n (st_mem (snd after_prod)) = B x /\
  (forall k, k < n -> st_mem (snd after_solve) (y_out + k) = coeff y k) /\
  (m_info (m_cg (snd (fst after_solve))) = Success ->
   (squaredNorm (axpy (- s1)%Qc (B y) (B x))
    <= epsilon traits * epsilon traits * squaredNorm (B x))%Qc).
Proof.
  intros Hwf Hfit Hflag Hc Hr _ _ n B x after_prod after_solve y.
  destruct (constructed_run Uplo traits mat_ st0 st1 st this0 this cs Hc Hr)
    as (Hsq & Hn & Hm & _ & _ & _ & _ & _ & HM & _).
  assert (Hnn : Z.to_nat (m_n this) = n)
    by (rewrite Hn, (int_of_Index_fits _ Hfit); apply Nat2Z.id).
  assert (Hb : load b_out n (st_mem (snd after_prod)) = B x).
  { unfold after_prod, mat_prod. simpl. rewrite Hnn, Hm, HM.
    rewrite load_store_same by (now apply selfadjoint_times_length).
    now apply selfadjoint_times_dense. }
  assert (Hr' : run Uplo traits (cs ++ [CallMatProd x_in b_out]) this0 st1
                = (snd (fst after_prod), snd after_prod)).
  { rewrite run_app, Hr. reflexivity. }
  destruct (solve_residual_lower_mirror Uplo traits mat_ st0 st1
              (snd after_prod) this0 (snd (fst after_prod))
              (cs ++ [CallMatProd x_in b_out]) b_out
              Hwf Hfit Hc Hr') as (Ey & _ & Hok).
  fold n in Ey, Hok.
  assert (Hn1 : Z.to_nat (m_n (snd (fst after_prod))) = n)
    by (unfold after_prod, mat_prod; simpl; exact Hnn).
  assert (EB : forall v,
             dense_mat_vec n (sym_coeff Lower (st_mats st0 mat_)) v = B v).
  { intros v. apply dense_mat_vec_ext, sym_coeff_solver. exact Hflag. }
  split; [exact Hb|]. split.
  - intros k Hk. unfold after_solve. rewrite solve_unfold. simpl st_mem.
    apply store_inside. unfold after_prod, mat_prod. simpl.
    now rewrite Hnn.
  - intros Hs.
    assert (Hs' : m_info
                    (snd (fst (ConjugateGradient_solve traits
                                 (m_cg (snd (fst after_prod)))
                                 (load b_out n (st_mem (snd after_prod)))
                                 (snd after_prod)))) = Success).
    { rewrite <- Hn1. unfold after_solve in Hs.
      rewrite solve_unfold in Hs. exact Hs. }
    specialize (Hok Hs').
    rewrite EB, Ey, Hb in Hok. exact Hok.
Qed.

Lemma round_trip_residual_witness :
  let B := dense_mat_vec 2 (sym_coeff Lower B_lower) in
  let x := load 0 2 (st_mem example_state) in
  let after_prod := mat_prod Lower example_operator 0 2 example_state in
  let after_solve :=
    solve double_traits (snd (fst after_prod)) 2 4 (snd after_prod) in
  let y := solve_result double_traits (snd (fst after_prod)) 2
                        (snd after_prod) in
  load 2 2 (st_mem (snd after_prod)) = B x /\
  (forall k, k < 2 -> st_mem (snd after_solve) (4 + k) = coeff y k) /\
  (m_info (m_cg (snd (fst after_solve))) = Success ->
   (squaredNorm (axpy (- s1)%Qc (B y) (B x))
    <= epsilon double_traits * epsilon double_traits
       * squaredNorm (B x))%Qc).
Proof.
  apply (round_trip_residual Lower double_traits 0
           (state_of B_lower [q 4; q 1]) example_state example_state
           example_operator example_operator [] 0 2 4);
    try reflexivity.
  - apply Z.leb_le. reflexivity.
  - left. reflexivity.
  - left. apply le_n.
  - left. apply le_n.
Defined.

(** ** The work of one [solve] *)

Lemma cg_loop_iterations (mat precond : Vector -> Vector) (remaining : nat) :
  forall (threshold : Scalar) (i : nat) (x residual p : Vector)
         (absNew residualNorm2 : Scalar),
    snd (fst (cg_loop remaining mat precond threshold i x residual p
                      absNew residualNorm2)) <= i + remaining.
Proof.
  induction remaining as [|k IH]; intros; simpl.
  - lia.
  - destruct (sc_ltb _ threshold); simpl; [lia|].
    etransitivity; [apply IH|lia].
Qed.

Lemma conjugate_gradient_iterations (traits : NumTraits)
    (mat precond : Vector -> Vector) (rhs x : Vector) (maxIters : nat)
    (tol : Scalar) :
  snd (fst (conjugate_gradient traits mat precond rhs x maxIters tol))
  <= maxIters.
Proof.
  unfold conjugate_gradient.
  destruct (sc_eqb _ _); simpl; [lia|].
  destruct (sc_ltb _ _); simpl; [lia|].
  pose proof (cg_loop_iterations mat precond maxIters
                (maxi (tol * tol * squaredNorm rhs)%Qc
                      (considerAsZero traits))
                0 x (axpy (- s1)%Qc (mat x) rhs)
                (precond (axpy (- s1)%Qc (mat x) rhs))
                (dot (axpy (- s1)%Qc (mat x) rhs)
                     (precond (axpy (- s1)%Qc (mat x) rhs)))
                (squaredNorm (axpy (- s1)%Qc (mat x) rhs))) as H.
  destruct (cg_loop _ _ _ _ _ _ _ _ _ _) as [[x' iters] r2]. simpl in *.
  exact H.
Qed.

(** X8.  The work of [solve] is bounded by the dimension alone: for an
    operator constructed on a matrix of [n] rows, after any sequence of
    calls, the number of iterations that a [solve] records is at most
    [2 n], whatever the input vector and whether or not the iteration
    converged. *)
Theorem solve_iteration_cap (Uplo : UpLoType) (traits : NumTraits)
    (mat_ : MatRef) (st0 st1 st : State)
    (this0 this : SparseRegularInverse) (cs : list Call)
    (x_in y_out : Ptr) :
  construct traits mat_ st0 = (Return this0, st1) ->
  run Uplo traits cs this0 st1 = (this, st) ->
  m_iterations (m_cg (snd (fst (solve traits this x_in y_out st))))
  <= 2 * mat_rows (st_mats st0 mat_).
Proof.
  intros Hc Hr.
  destruct (constructed_run Uplo traits mat_ st0 st1 st this0 this cs Hc Hr)
    as (Hsq & _ & _ & Hp & _ & _ & Hmax & _ & HM & _).
  rewrite solve_unfold. simpl. unfold ConjugateGradient_solve.
  pose proof (conjugate_gradient_iterations traits
                (selfadjoint_times ConjugateGradient_UpLo
                   (cg_matrix (m_cg this) st))
                (precond_solve (m_invdiag (m_cg this)))
                (load x_in (Z.to_nat (m_n this)) (st_mem st))
                (setZero (List.length
                            (load x_in (Z.to_nat (m_n this)) (st_mem st))))
                (maxIterations (m_cg this) (cg_matrix (m_cg this) st))
                (m_tolerance (m_cg this))) as H.
  destruct (conjugate_gradient _ _ _ _ _ _ _) as [[x iters] err].
  simpl in *. unfold maxIterations, cg_matrix in H.
  rewrite Hmax, Hp, HM in H. simpl in H. rewrite <- Hsq in H. lia.
Qed.

Lemma solve_iteration_cap_witness :
  m_iterations
    (m_cg (snd (fst (solve double_traits
                       (fst (run Lower double_traits [CallMatProd 0 2]
                                 example_operator example_state))
                       2 4
                       (snd (run Lower double_traits [CallMatProd 0 2]
                                 example_operator example_state))))))
  <= 2 * 2.
Proof.
  exact (solve_iteration_cap Lower double_traits 0
           (state_of B_lower [q 4; q 1]) example_state _
           example_operator _ [CallMatProd 0 2] 2 4
           eq_refl (surjective_pairing _)).
Defined.

(** ** Edge cases of [solve] and of the dimension *)

Lemma squaredNorm_setZero (n : nat) : squaredNorm (setZero n) = s0.
Proof.
  unfold squaredNorm, setZero. induction n as [|n IH]; simpl;
    [reflexivity|]. rewrite IH. ring.
Qed.

Lemma load_zero (p n : nat) (mem : Ptr -> Scalar) :
  (forall k, k < n -> mem (p + k) = s0) -> load p n mem = setZero n.
Proof.
  intros H. apply vec_ext.
  - rewrite load_length. unfold setZero. now rewrite repeat_length.
  - intros k Hk. rewrite load_length in Hk.
    rewrite coeff_load by exact Hk. rewrite coeff_setZero. now apply H.
Qed.

(** X9.  On an input buffer of zeros [solve] does not iterate: it writes
    zeros to the output buffer and records zero iterations, a zero error
    and [Success], on every operator, whatever its matrix. *)
Theorem solve_zero_input (traits : NumTraits) (this : SparseRegularInverse)
    (x_in y_out : Ptr) (st : State) :
  (forall k, k < Z.to_nat (m_n this) -> st_mem st (x_in + k) = s0) ->
  (forall k, k < Z.to_nat (m_n this) ->
     st_mem (snd (solve traits this x_in y_out st)) (y_out + k) = s0) /\
  m_iterations (m_cg (snd (fst (solve traits this x_in y_out st)))) = 0 /\
  m_error_sq (m_cg (snd (fst (solve traits this x_in y_out st)))) = s0 /\
  m_info (m_cg (snd (fst (solve traits this x_in y_out st)))) = Success.
Proof.
  intros Hz. rewrite solve_unfold. simpl.
  unfold solve_result, ConjugateGradient_solve.
  rewrite (load_zero _ _ _ Hz). unfold conjugate_gradient.
  rewrite squaredNorm_setZero.
  replace (sc_eqb s0 s0) with true by reflexivity. simpl.
  split; [|split; [reflexivity|split; [reflexivity|]]].
  - intros k Hk. rewrite store_inside by exact Hk. apply coeff_setZero.
  - assert (L : sc_leb s0 (m_tolerance (m_cg this)
                           * m_tolerance (m_cg this))%Qc = true).
    { unfold sc_leb. apply Qle_bool_iff. apply Qc_square_nonneg. }
    now rewrite L.
Qed.

Lemma solve_zero_input_witness :
  (forall k, k < 2 ->
     st_mem (snd (solve double_traits example_operator 6 8 example_state))
            (8 + k) = s0) /\
  m_iterations (m_cg (snd (fst (solve double_traits example_operator 6 8
                                      example_state)))) = 0 /\
  m_error_sq (m_cg (snd (fst (solve double_traits example_operator 6 8
                                    example_state)))) = s0 /\
  m_info (m_cg (snd (fst (solve double_traits example_operator 6 8
                                example_state)))) = Success.
Proof.
  apply (solve_zero_input double_traits example_operator 6 8 example_state).
  intros k Hk. change (Z.to_nat (m_n example_operator)) with 2 in Hk.
  destruct k as [|[|k]]; [reflexivity|reflexivity|lia].
Defined.

Lemma store_nothing (p : Ptr) (v : Vector) (mem : Ptr -> Scalar) (a : Ptr) :
  store p 0 v mem a = mem a.
Proof. apply store_outside. lia. Qed.

Lemma run_dimension_zero (Uplo : UpLoType) (traits : NumTraits)
    (cs : list Call) :
  forall (this : SparseRegularInverse) (st : State),
    Z.to_nat (m_n this) = 0 ->
    forall a, st_mem (snd (run Uplo traits cs this st)) a = st_mem st a.
Proof.
  induction cs as [|c tl IH]; intros this st Hn a; simpl; [reflexivity|].
  destruct c as [| |x_in y_out|x_in y_out]; simpl.
  - now apply IH.
  - now apply IH.
  - rewrite solve_unfold. simpl. rewrite IH by exact Hn. simpl.
    rewrite Hn. apply store_nothing.
  - unfold mat_prod. simpl. rewrite IH by exact Hn. simpl.
    rewrite Hn. apply store_nothing.
Qed.

(** X11.  The empty matrix is accepted: on a matrix without rows and
    columns construction succeeds, [rows()] and [cols()] return zero, and
    no sequence of calls changes a scalar of the caller's buffers. *)
Theorem empty_matrix_operator (Uplo : UpLoType) (traits : NumTraits)
    (mat_ : MatRef) (st0 : State) (cs : list Call) :
  mat_rows (st_mats st0 mat_) = 0 ->
  mat_cols (st_mats st0 mat_) = 0 ->
  exists this0 st1,
    construct traits mat_ st0 = (Return this0, st1) /\
    rows (fst (run Uplo traits cs this0 st1)) = 0%Z /\
    cols (fst (run Uplo traits cs this0 st1)) = 0%Z /\
    forall a, st_mem (snd (run Uplo traits cs this0 st1)) a = st_mem st0 a.
Proof.
  intros Hr0 Hc0. rewrite construct_spec, Hr0, Hc0. simpl.
  eexists _, _. split; [reflexivity|].
  match goal with
  | |- context [run Uplo traits cs ?t ?s] =>
      destruct (run_spec Uplo traits cs t s) as ((S1 & _) & _);
      pose proof (run_dimension_zero Uplo traits cs t s eq_refl) as Hmem
  end.
  simpl in S1. unfold rows, cols. rewrite <- S1.
  split; [reflexivity|]. split; [reflexivity|].
  intros a. rewrite Hmem. reflexivity.
Qed.

Lemma empty_matrix_operator_witness :
  exists this0 st1,
    construct double_traits 0 (state_of m_dummy [q 4; q 1])
      = (Return this0, st1) /\
    rows (fst (run Upper double_traits [CallSolve 0 0; CallMatProd 0 1]
                   this0 st1)) = 0%Z /\
    cols (fst (run Upper double_traits [CallSolve 0 0; CallMatProd 0 1]
                   this0 st1)) = 0%Z /\
    forall a, st_mem (snd (run Upper double_traits
                               [CallSolve 0 0; CallMatProd 0 1] this0 st1))
                     a
              = st_mem (state_of m_dummy [q 4; q 1]) a.
Proof.
  apply (empty_matrix_operator Upper double_traits 0
           (state_of m_dummy [q 4; q 1])
           [CallSolve 0 0; CallMatProd 0 1]);
    reflexivity.
Defined.

(** ** Matrices without coefficients below the diagonal *)

Lemma Qc_pos_neq_0 (a : Scalar) : (s0 < a)%Qc -> a <> s0.
Proof. intros H E. rewrite E in H. exact (Qclt_not_eq _ _ H eq_refl). Qed.

Lemma weighted_square_pos (a u : Scalar) :
  (s0 < u)%Qc -> a <> s0 -> (s0 < a * (u * a))%Qc.
Proof.
  intros Hu Ha. apply Qc_neq_0 in Ha. qc_to_q.
  destruct a as [a Ha'], u as [u Hu']. cbn [this] in *.
  assert (0 < a * a)%Q
    by (destruct (Q_dec a 0) as [[H|H]|H]; [nra|nra|contradiction]).
  nra.
Qed.

Lemma weighted_square_nonneg (a u : Scalar) :
  (s0 < u)%Qc -> (s0 <= a * (u * a))%Qc.
Proof.
  intros Hu. qc_to_q.
  destruct a as [a Ha'], u as [u Hu']. cbn [this] in *. nra.
Qed.

Lemma Qc_plus_pos_nonneg (a b : Scalar) :
  (s0 < a)%Qc -> (s0 <= b)%Qc -> (s0 < a + b)%Qc.
Proof.
  intros Ha Hb. qc_to_q.
  destruct a as [a Ha'], b as [b Hb']. cbn [this] in *. lra.
Qed.

Lemma Qc_plus_nonneg_pos (a b : Scalar) :
  (s0 <= a)%Qc -> (s0 < b)%Qc -> (s0 < a + b)%Qc.
Proof.
  intros Ha Hb. qc_to_q.
  destruct a as [a Ha'], b as [b Hb']. cbn [this] in *. lra.
Qed.

Lemma Qc_inv_pos (a : Scalar) : (s0 < a)%Qc -> (s0 < s1 / a)%Qc.
Proof.
  intros Ha. unfold Qcdiv. rewrite Qcmult_1_l.
  unfold Qclt, Qcinv, Q2Qc in *. cbn [this] in *.
  rewrite !Qred_correct in *. now apply Qinv_lt_0_compat.
Qed.

Lemma sc_ltb_lt (a b : Scalar) : sc_ltb a b = true <-> (a < b)%Qc.
Proof.
  unfold sc_ltb, Qclt. rewrite negb_true_iff. split.
  - intros H. apply Qnot_le_lt. intros L.
    apply Qle_bool_iff in L. congruence.
  - intros H. destruct (Qle_bool b a) eqn:E; [|reflexivity].
    apply Qle_bool_iff in E. exfalso. exact (Qlt_not_le _ _ H E).
Qed.

Lemma sc_ltb_ge (a b : Scalar) : sc_ltb a b = false <-> (b <= a)%Qc.
Proof.
  unfold sc_ltb, Qcle. rewrite negb_false_iff. apply Qle_bool_iff.
Qed.

Lemma dot_comm (u v : Vector) : dot u v = dot v u.
Proof.
  revert v. induction u as [|a u IH]; intros [|b v]; simpl;
    try reflexivity. rewrite IH. ring.
Qed.

Lemma coeff_cwiseProduct (u v : Vector) (k : nat) :
  List.length u = List.length v ->
  coeff (cwiseProduct u v) k = (coeff u k * coeff v k)%Qc.
Proof.
  unfold coeff. revert v k.
  induction u as [|a u IH]; intros [|b v] k L; simpl in *;
    try discriminate L.
  - destruct k; ring.
  - destruct k as [|k]; [reflexivity|]. apply IH. lia.
Qed.

(** A sum of squares with positive weights is positive unless every term
    is zero. *)
Lemma weighted_norm_pos (b w : Vector) :
  List.length w = List.length b ->
  (forall k, k < List.length b -> (s0 < coeff w k)%Qc) ->
  squaredNorm b <> s0 ->
  (s0 < dot b (cwiseProduct w b))%Qc /\
  (s0 <= dot b (cwiseProduct w b))%Qc.
Proof.
  unfold squaredNorm. revert w.
  induction b as [|a b IH]; intros [|u w] L Hw Hn; simpl in *;
    try discriminate L; [contradiction Hn; reflexivity|].
  assert (Hu : (s0 < u)%Qc) by (apply (Hw 0); lia).
  assert (Hw' : forall k, k < List.length b -> (s0 < coeff w k)%Qc)
    by (intros k Hk; apply (Hw (S k)); lia).
  assert (Lw : List.length w = List.length b) by lia.
  assert (Hr : dot b b <> s0 -> (s0 <= dot b (cwiseProduct w b))%Qc)
    by (intros H; apply (IH w Lw Hw' H)).
  assert (Hr0 : (s0 <= dot b (cwiseProduct w b))%Qc).
  { destruct (Qc_eq_dec (dot b b) s0) as [E|E]; [|exact (Hr E)].
    clear - E Lw. revert w Lw E.
    induction b as [|a b IH]; intros [|u w] Lw E; simpl in *;
      try discriminate Lw; try apply Qcle_refl.
    assert (Ha : a = s0 /\ dot b b = s0).
    { pose proof (Qc_square_nonneg a) as H1.
      pose proof (squaredNorm_nonneg b) as H2. unfold squaredNorm in H2.
      split; apply Qc_is_canon.
      - assert (E' : (this (a * a + dot b b)%Qc == 0)%Q)
          by (rewrite E; reflexivity).
        qc_to_q. destruct a as [a Ha']. cbn [this] in *.
        destruct (dot b b) as [t Ht]. cbn [this] in *.
        change (this (Q2Qc 0)) with 0%Q.
        destruct (Q_dec a 0) as [[H|H]|H]; [nra|nra|exact H].
      - assert (E' : (this (a * a + dot b b)%Qc == 0)%Q)
          by (rewrite E; reflexivity).
        qc_to_q. destruct a as [a Ha']. cbn [this] in *.
        destruct (dot b b) as [t Ht]. cbn [this] in *.
        change (this (Q2Qc 0)) with 0%Q. nra. }
    destruct Ha as [-> Hb].
    replace (s0 * (u * s0) + dot b (cwiseProduct w b))%Qc
      with (dot b (cwiseProduct w b)) by ring.
    apply IH; [lia|exact Hb]. }
  split.
  - destruct (Qc_eq_dec a s0) as [->|Ha].
    + replace (s0 * (u * s0) + dot b (cwiseProduct w b))%Qc
        with (dot b (cwiseProduct w b)) by ring.
      apply (IH w Lw Hw'). intros E. apply Hn. rewrite E. ring.
    + apply Qc_plus_pos_nonneg;
        [now apply weighted_square_pos|exact Hr0].
  - replace s0 with (s0 + s0)%Qc by ring.
    apply Qcplus_le_compat;
      [now apply weighted_square_nonneg|exact Hr0].
Qed.

Lemma axpy_zero_left (v : Vector) :
  axpy s1 v (setZero (List.length v)) = v.
Proof.
  apply vec_ext.
  - rewrite axpy_length; unfold setZero; now rewrite repeat_length.
  - intros k _.
    rewrite coeff_axpy by (unfold setZero; now rewrite repeat_length).
    rewrite coeff_setZero. ring.
Qed.

Lemma axpy_minus_self (v : Vector) :
  axpy (- s1)%Qc v v = setZero (List.length v).
Proof.
  apply vec_ext.
  - rewrite axpy_length by reflexivity. unfold setZero.
    now rewrite repeat_length.
  - intros k _. rewrite coeff_axpy by reflexivity.
    rewrite coeff_setZero. ring.
Qed.

Lemma axpy_minus_zero (n : nat) (v : Vector) :
  List.length v = n -> axpy (- s1)%Qc (setZero n) v = v.
Proof.
  intros L. apply vec_ext.
  - rewrite axpy_length; [reflexivity|].
    unfold setZero. now rewrite repeat_length.
  - intros k _.
    rewrite coeff_axpy by (unfold setZero; now rewrite repeat_length).
    rewrite coeff_setZero. ring.
Qed.

Lemma Qc_square_times_pos (t s : Scalar) :
  (s0 < t)%Qc -> (s0 < s)%Qc -> (s0 < t * t * s)%Qc.
Proof.
  intros Ht Hs. qc_to_q.
  destruct t as [t Ht'], s as [s Hs']. cbn [this] in *.
  assert (0 < t * t)%Q by nra. nra.
Qed.

Lemma Qc_contraction (t s : Scalar) :
  (t * t <= s1)%Qc -> (s0 < s)%Qc -> (t * t * s <= s)%Qc.
Proof.
  intros Ht Hs. qc_to_q.
  destruct t as [t Ht'], s as [s Hs']. cbn [this] in *.
  change (this (Q2Qc 1)) with 1%Q in *. nra.
Qed.

Section DiagonalSolve.

Variable traits : NumTraits.
Variable n : nat.
Variable A : nat -> nat -> Scalar.
Variable invd : Vector.
Variable b : Vector.
Variable tol : Scalar.

Hypothesis A_off :
  forall r c, r < n -> c < n -> r <> c -> A r c = s0.
Hypothesis A_pos : forall k, k < n -> (s0 < A k k)%Qc.
Hypothesis invd_length : List.length invd = n.
Hypothesis invd_coeff :
  forall k, k < n -> coeff invd k = (s1 / A k k)%Qc.
Hypothesis b_length : List.length b = n.
Hypothesis b_pos : (s0 < squaredNorm b)%Qc.
Hypothesis tol_pos : (s0 < tol)%Qc.
Hypothesis tol_le : (tol * tol <= s1)%Qc.
Hypothesis b_not_negligible : (considerAsZero traits <= squaredNorm b)%Qc.

Lemma coeff_dense_diag (v : Vector) (k : nat) :
  k < n ->
  coeff (dense_mat_vec n A v) k = (A k k * coeff v k)%Qc.
Proof.
  intros Hk. rewrite coeff_dense_mat_vec by exact Hk.
  rewrite <- (sum_n_delta n k (fun c => (A k c * coeff v c)%Qc) Hk).
  apply sum_n_ext. intros c Hc.
  destruct (Nat.eqb_spec k c) as [->|Hne]; [reflexivity|].
  rewrite (A_off k c Hk Hc Hne). ring.
Qed.

Lemma dense_diag_zero : dense_mat_vec n A (setZero n) = setZero n.
Proof.
  apply vec_ext.
  - rewrite dense_mat_vec_length. unfold setZero. now rewrite repeat_length.
  - intros k Hk. rewrite dense_mat_vec_length in Hk.
    rewrite coeff_dense_diag by exact Hk. rewrite !coeff_setZero. ring.
Qed.

Lemma precond_solve_length : List.length (precond_solve invd b) = n.
Proof.
  unfold precond_solve. rewrite cwiseProduct_length; congruence.
Qed.

(** The matrix applied to the preconditioned input gives the input back. *)
Lemma dense_diag_precond :
  dense_mat_vec n A (precond_solve invd b) = b.
Proof.
  apply vec_ext.
  - now rewrite dense_mat_vec_length.
  - intros k Hk. rewrite dense_mat_vec_length in Hk.
    rewrite coeff_dense_diag by exact Hk. unfold precond_solve.
    rewrite coeff_cwiseProduct by congruence.
    rewrite (invd_coeff k Hk). field.
    apply Qc_pos_neq_0. now apply A_pos.
Qed.

Lemma precond_dot_pos : (s0 < dot b (precond_solve invd b))%Qc.
Proof.
  unfold precond_solve. apply weighted_norm_pos.
  - congruence.
  - intros k Hk. rewrite b_length in Hk. rewrite (invd_coeff k Hk).
    apply Qc_inv_pos. now apply A_pos.
  - now apply Qc_pos_neq_0.
Qed.

Lemma threshold_bounds :
  (s0 < maxi (tol * tol * squaredNorm b) (considerAsZero traits))%Qc /\
  (maxi (tol * tol * squaredNorm b) (considerAsZero traits)
   <= squaredNorm b)%Qc.
Proof.
  assert (P : (s0 < tol * tol * squaredNorm b)%Qc)
    by (apply Qc_square_times_pos; [exact tol_pos|exact b_pos]).
  assert (Q : (tol * tol * squaredNorm b <= squaredNorm b)%Qc)
    by (apply Qc_contraction; [exact tol_le|exact b_pos]).
  unfold maxi. destruct (sc_ltb _ _) eqn:E.
  - apply sc_ltb_lt in E. split.
    + exact (Qclt_trans _ _ _ P E).
    + exact b_not_negligible.
  - split; assumption.
Qed.

(** The iteration stops in its first pass with the input divided by the
    diagonal. *)
Lemma conjugate_gradient_diagonal (k : nat) :
  conjugate_gradient traits (dense_mat_vec n A) (precond_solve invd)
                     b (setZero n) (S k) tol
  = (precond_solve invd b, 0, s0).
Proof.
  destruct threshold_bounds as [Tpos Tle].
  unfold conjugate_gradient.
  assert (N0 : sc_eqb (squaredNorm b) s0 = false).
  { destruct (sc_eqb _ _) eqn:E; [|reflexivity].
    apply sc_eqb_eq in E. exfalso.
    exact (Qc_pos_neq_0 _ b_pos E). }
  rewrite N0, dense_diag_zero, (axpy_minus_zero n b b_length).
  apply sc_ltb_ge in Tle. rewrite Tle.
  cbn [cg_loop]. rewrite dense_diag_precond.
  assert (Alpha : (dot b (precond_solve invd b)
                   / dot (precond_solve invd b) b)%Qc = s1).
  { rewrite (dot_comm (precond_solve invd b) b). field.
    apply Qc_pos_neq_0. exact precond_dot_pos. }
  rewrite Alpha, axpy_minus_self, squaredNorm_setZero.
  apply sc_ltb_lt in Tpos. rewrite Tpos.
  rewrite <- precond_solve_length at 1. rewrite axpy_zero_left.
  f_equal. field. exact (Qc_pos_neq_0 _ b_pos).
Qed.

End DiagonalSolve.

(** The call of the solver made by [solve] on a constructed operator, with
    the product of the lower view written as a dense product. *)
Lemma constructed_solve (Uplo : UpLoType) (traits : NumTraits)
    (mat_ : MatRef) (st0 st1 st : State) (this0 this : SparseRegularInverse)
    (cs : list Call) (b : Vector) :
  wf_matrix (st_mats st0 mat_) = true ->
  construct traits mat_ st0 = (Return this0, st1) ->
  run Uplo traits cs this0 st1 = (this, st) ->
  ConjugateGradient_solve traits (m_cg this) b st
  = (let '(x, iters, err) :=
       conjugate_gradient traits
         (dense_mat_vec (mat_rows (st_mats st0 mat_))
                        (sym_coeff Lower (st_mats st0 mat_)))
         (precond_solve (factorize (st_mats st0 mat_)))
         b (setZero (List.length b))
         (2 * mat_rows (st_mats st0 mat_)) (epsilon traits) in
     (x,
      {| mp_matrix := Some mat_;
         m_invdiag := factorize (st_mats st0 mat_);
         m_isInitialized := true;
         m_maxIterations := (-1)%Z;
         m_tolerance := epsilon traits;
         m_error_sq := err;
         m_iterations := iters;
         m_info := if sc_leb err (epsilon traits * epsilon traits)%Qc
                   then Success else NoConvergence |},
      {| st_mats := st_mats st; st_mem := st_mem st;
         st_trace := st_trace st ++ [EvSolve] |})).
Proof.
  intros Hwf Hc Hr.
  destruct (constructed_run Uplo traits mat_ st0 st1 st this0 this cs Hc Hr)
    as (Hsq & _ & _ & Hp & Hd & Hi & Hmax & Htol & HM & _).
  unfold ConjugateGradient_solve, ConjugateGradient_UpLo, cg_matrix,
    maxIterations.
  rewrite Hp, Hd, Hi, Hmax, Htol, HM. simpl Z.ltb. cbv iota.
  rewrite <- Hsq.
  rewrite (conjugate_gradient_ext traits
             (selfadjoint_times Lower (st_mats st0 mat_))
             (dense_mat_vec (mat_rows (st_mats st0 mat_))
                            (sym_coeff Lower (st_mats st0 mat_)))
             (precond_solve (factorize (st_mats st0 mat_)))
             (precond_solve (factorize (st_mats st0 mat_))));
    [reflexivity| |reflexivity].
  intros v. now apply selfadjoint_times_dense.
Qed.

Lemma coeff_factorize_from (outers : list (list Entry)) :
  forall j t, t < List.length outers ->
    coeff (factorize_from j outers) t
    = invdiag_coeff (j + t) (nth t outers []).
Proof.
  unfold coeff.
  induction outers as [|es tl IH]; intros j t Ht; simpl in Ht; [lia|].
  destruct t as [|t]; simpl.
  - now rewrite Nat.add_0_r.
  - rewrite IH by lia. now replace (S j + t) with (j + S t) by lia.
Qed.

Lemma coeff_factorize_pos (m : SparseMatrix) (k : nat) :
  k < outerSize m -> (s0 < mat_coeff m k k)%Qc ->
  coeff (factorize m) k = (s1 / mat_coeff m k k)%Qc.
Proof.
  intros Hk Hpos. unfold factorize.
  rewrite coeff_factorize_from by exact Hk. simpl.
  fold (innerVector m k). rewrite invdiag_coeff_entry_at.
  rewrite <- mat_coeff_diag.
  destruct (sc_eqb (mat_coeff m k k) s0) eqn:E; [|reflexivity].
  apply sc_eqb_eq in E. exfalso. exact (Qc_pos_neq_0 _ Hpos E).
Qed.

(** X12.  With exact scalars and buffers that do not overlap: on a matrix
    that stores nothing below its diagonal (only the upper triangle is
    populated, or the matrix is diagonal) and whose diagonal is positive,
    [solve] divides the input by the diagonal.  For an input that is not
    negligible, with [0 < epsilon <= 1], it writes [x_k / B_kk] to the
    output buffer without completing an iteration and records [Success],
    whatever the [Uplo] of the operator and whatever is stored above the
    diagonal. *)
Theorem solve_divides_by_diagonal (Uplo : UpLoType) (traits : NumTraits)
    (mat_ : MatRef) (st0 st1 st : State)
    (this0 this : SparseRegularInverse) (cs : list Call)
    (x_in y_out : Ptr) :
  wf_matrix (st_mats st0 mat_) = true ->
  (Z.of_nat (mat_rows (st_mats st0 mat_)) <= INT_MAX)%Z ->
  lower_part_empty (st_mats st0 mat_) ->
  (forall k, k < mat_rows (st_mats st0 mat_) ->
             (s0 < mat_coeff (st_mats st0 mat_) k k)%Qc) ->
  (s0 < epsilon traits)%Qc ->
  (epsilon traits * epsilon traits <= s1)%Qc ->
  construct traits mat_ st0 = (Return this0, st1) ->
  run Uplo traits cs this0 st1 = (this, st) ->
  disjoint x_in y_out (mat_rows (st_mats st0 mat_)) ->
  (s0 < squaredNorm (load x_in (mat_rows (st_mats st0 mat_)) (st_mem st)))%Qc
  ->
  (considerAsZero traits
   <= squaredNorm (load x_in (mat_rows (st_mats st0 mat_)) (st_mem st)))%Qc
  ->
  (forall k, k < mat_rows (st_mats st0 mat_) ->
     st_mem (snd (solve traits this x_in y_out st)) (y_out + k)
     = (st_mem st (x_in + k)%nat / mat_coeff (st_mats st0 mat_) k k)%Qc) /\
  m_iterations (m_cg (snd (fst (solve traits this x_in y_out st)))) = 0 /\
  m_info (m_cg (snd (fst (solve traits this x_in y_out st)))) = Success.
Proof.
  intros Hwf Hfit Hlow Hpos Heps Heps1 Hc Hr _ Hb Hneg.
  destruct (constructed_run Uplo traits mat_ st0 st1 st this0 this cs Hc Hr)
    as (Hsq & Hn & _).
  set (B := st_mats st0 mat_) in *. set (n := mat_rows B) in *.
  assert (Hnn : Z.to_nat (m_n this) = n)
    by (rewrite Hn, (int_of_Index_fits _ Hfit); apply Nat2Z.id).
  set (b := load x_in n (st_mem st)) in *.
  assert (Lb : List.length b = n) by apply load_length.
  assert (Hn1 : exists k, 2 * n = S k).
  { destruct n as [|n']; [|exists (S (n' + n' + 0)); simpl; lia].
    exfalso. apply (Qc_pos_neq_0 _ Hb). reflexivity. }
  destruct Hn1 as [k Hk].
  assert (Lf : List.length (factorize B) = n).
  { unfold factorize. rewrite factorize_from_length.
    apply (square_outerSize B Hsq). }
  assert (Aoff : forall r c, r < n -> c < n -> r <> c ->
                 sym_coeff Lower B r c = s0).
  { intros r c _ _ Hne. unfold sym_coeff, in_triangle.
    destruct (Nat.leb_spec c r); apply Hlow; lia. }
  assert (Adiag : forall j, sym_coeff Lower B j j = mat_coeff B j j).
  { intros j. unfold sym_coeff, in_triangle. now rewrite Nat.leb_refl. }
  assert (Apos : forall j, j < n -> (s0 < sym_coeff Lower B j j)%Qc)
    by (intros j Hj; rewrite Adiag; now apply Hpos).
  assert (Ainv : forall j, j < n ->
                 coeff (factorize B) j = (s1 / sym_coeff Lower B j j)%Qc).
  { intros j Hj. rewrite Adiag. apply coeff_factorize_pos.
    - now rewrite (square_outerSize B Hsq).
    - now apply Hpos. }
  pose proof (conjugate_gradient_diagonal traits n (sym_coeff Lower B)
                (factorize B) b (epsilon traits) Aoff Apos Lf Ainv Lb Hb
                Heps Heps1 Hneg k) as CG.
  pose proof (constructed_solve Uplo traits mat_ st0 st1 st this0 this cs b
                Hwf Hc Hr) as E.
  fold B n in E. rewrite Lb, Hk, CG in E.
  rewrite solve_unfold. unfold solve_result. rewrite Hnn. fold b.
  rewrite E. simpl.
  split; [|split; [reflexivity|]].
  - intros j Hj. rewrite store_inside by exact Hj.
    unfold precond_solve. rewrite coeff_cwiseProduct by congruence.
    rewrite (Ainv j Hj), Adiag. unfold b. rewrite coeff_load by exact Hj.
    field. apply Qc_pos_neq_0. now apply Hpos.
  - assert (L : sc_leb s0 (epsilon traits * epsilon traits)%Qc = true).
    { unfold sc_leb. apply Qle_bool_iff. apply Qc_square_nonneg. }
    now rewrite L.
Qed.

Lemma entry_at_notin (i : nat) (es : list Entry) :
  (forall e, In e es -> fst e <> i) -> entry_at i es = s0.
Proof.
  induction es as [|[k v] tl IH]; intros H; simpl; [reflexivity|].
  destruct (Nat.eqb_spec k i) as [E|_].
  - exfalso. exact (H (k, v) (or_introl eq_refl) E).
  - apply IH. intros e He. apply H. now right.
Qed.

Lemma In_combine_seq (l : list (list Entry)) :
  forall s j, j < List.length l ->
    In (s + j, nth j l []) (combine (seq s (List.length l)) l).
Proof.
  induction l as [|es tl IH]; intros s j Hj; simpl in Hj; [lia|].
  destruct j as [|j]; simpl.
  - left. now rewrite Nat.add_0_r.
  - right. replace (s + S j) with (S s + j) by lia. apply IH. lia.
Qed.

(** A matrix with only its upper triangle populated stores nothing below
    the diagonal. *)
Lemma triangle_only_upper_lower_part_empty (m : SparseMatrix) :
  triangle_only Upper m = true -> lower_part_empty m.
Proof.
  intros H row col Hlt. unfold triangle_only in H.
  rewrite forallb_forall in H.
  assert (Hin : forall j e, In e (innerVector m j) ->
                in_triangle Upper (entry_row m j (fst e))
                                  (entry_col m j (fst e)) = true).
  { intros j e He. unfold innerVector in He.
    destruct (Nat.lt_ge_cases j (List.length (m_data m))) as [Hj|Hj].
    - pose proof (In_combine_seq (m_data m) 0 j Hj) as Hc.
      specialize (H _ Hc). simpl in H. rewrite forallb_forall in H.
      exact (H e He).
    - rewrite nth_overflow in He by exact Hj. destruct He. }
  unfold mat_coeff. destruct (IsRowMajor m) eqn:RM.
  - apply entry_at_notin. intros e He Ee.
    specialize (Hin row e He). unfold entry_row, entry_col in Hin.
    rewrite RM in Hin. simpl in Hin. apply Nat.leb_le in Hin. lia.
  - apply entry_at_notin. intros e He Ee.
    specialize (Hin col e He). unfold entry_row, entry_col in Hin.
    rewrite RM in Hin. simpl in Hin. apply Nat.leb_le in Hin. lia.
Qed.

Lemma solve_divides_by_diagonal_witness :
  (forall k, k < 2 ->
     st_mem (snd (solve double_traits upper_operator 0 2 upper_state))
            (2 + k)
     = (coeff [q 4; q 1] k / mat_coeff B_upper k k)%Qc) /\
  m_iterations
    (m_cg (snd (fst (solve double_traits upper_operator 0 2
                           upper_state)))) = 0 /\
  m_info
    (m_cg (snd (fst (solve double_traits upper_operator 0 2
                           upper_state)))) = Success.
Proof.
  apply (solve_divides_by_diagonal Upper double_traits 0
           (state_of B_upper [q 4; q 1]) upper_state upper_state
           upper_operator upper_operator [] 0 2).
  - reflexivity.
  - apply Z.leb_le. reflexivity.
  - apply triangle_only_upper_lower_part_empty. reflexivity.
  - intros k Hk. change (k < 2) in Hk.
    destruct k as [|[|k]]; [reflexivity|reflexivity|lia].
  - reflexivity.
  - vm_compute. discriminate.
  - reflexivity.
  - reflexivity.
  - left. apply le_n.
  - reflexivity.
  - vm_compute. discriminate.
Defined.

(** ** The set-up of the solver *)

(** X13.  After a successful construction and any sequence of calls, the
    solver of the operator is initialised, refers to the very matrix that
    the operator borrows, and holds the diagonal preconditioner of that
    matrix as it is in the current state, with one coefficient for each of
    the [m_n] rows when an [int] holds the dimension. *)
Theorem solver_setup_invariant (Uplo : UpLoType) (traits : NumTraits)
    (mat_ : MatRef) (st0 st1 st : State)
    (this0 this : SparseRegularInverse) (cs : list Call) :
  construct traits mat_ st0 = (Return this0, st1) ->
  run Uplo traits cs this0 st1 = (this, st) ->
  m_isInitialized (m_cg this) = true /\
  mp_matrix (m_cg this) = Some (m_mat this) /\
  m_invdiag (m_cg this) = factorize (st_mats st (m_mat this)) /\
  ((Z.of_nat (mat_rows (st_mats st0 mat_)) <= INT_MAX)%Z ->
   List.length (m_invdiag (m_cg this)) = Z.to_nat (m_n this)).
Proof.
  intros Hc Hr.
  destruct (constructed_run Uplo traits mat_ st0 st1 st this0 this cs Hc Hr)
    as (Hsq & Hn & Hm & Hp & Hd & Hi & _ & _ & HM & _).
  rewrite Hi, Hp, Hd, Hm, HM, Hn.
  split; [reflexivity|]. split; [reflexivity|]. split; [reflexivity|].
  intros Hfit. rewrite (int_of_Index_fits _ Hfit), Nat2Z.id.
  unfold factorize. rewrite factorize_from_length.
  apply (square_outerSize _ Hsq).
Qed.

Lemma solver_setup_invariant_witness :
  m_isInitialized
    (m_cg (fst (run Lower double_traits [CallSolve 0 2; CallMatProd 2 4]
                    example_operator example_state))) = true /\
  mp_matrix
    (m_cg (fst (run Lower double_traits [CallSolve 0 2; CallMatProd 2 4]
                    example_operator example_state)))
  = Some (m_mat (fst (run Lower double_traits
                          [CallSolve 0 2; CallMatProd 2 4]
                          example_operator example_state))) /\
  m_invdiag
    (m_cg (fst (run Lower double_traits [CallSolve 0 2; CallMatProd 2 4]
                    example_operator example_state)))
  = factorize
      (st_mats (snd (run Lower double_traits
                         [CallSolve 0 2; CallMatProd 2 4]
                         example_operator example_state))
               (m_mat (fst (run Lower double_traits
                                [CallSolve 0 2; CallMatProd 2 4]
                                example_operator example_state)))) /\
  ((Z.of_nat (mat_rows (st_mats (state_of B_lower [q 4; q 1]) 0%nat))
    <= INT_MAX)%Z ->
   List.length
     (m_invdiag
        (m_cg (fst (run Lower double_traits
                        [CallSolve 0 2; CallMatProd 2 4]
                        example_operator example_state))))
   = Z.to_nat
       (m_n (fst (run Lower double_traits [CallSolve 0 2; CallMatProd 2 4]
                      example_operator example_state)))).
Proof.
  exact (solver_setup_invariant Lower double_traits 0
           (state_of B_lower [q 4; q 1]) example_state _
           example_operator _ [CallSolve 0 2; CallMatProd 2 4]
           eq_refl (surjective_pairing _)).
Defined.
